(** * rt-proxy: the WebRTC <-> streaming-AI audio bridge of [proxy.py]

    A shallow embedding of [proxy.py] and the properties of its egress framing
    loop ([run_send_track]), of its connection lifecycle ([RTCConnection],
    [offer], [on_shutdown]) and of its ingress direction ([on_track],
    [run_recv_track]).

    Conventions.
    - Python [int] is [Z]; Python [float] is IEEE binary64, the kernel's
      primitive [float]; [bytes] is [list byte]; [str] is [string].
    - Exceptions are values of [exn]; code that can raise returns [result].
    - The collaborators (aiortc, PyAV, google-genai, aiohttp) are not part of
      the repository.  Their calls are events of a trace; what they answer is
      an input of the model. *)

From Stdlib Require Import ZArith QArith Lqa Floats Ascii String Strings.Byte.
From Stdlib Require Import DecimalString DecimalN DecimalPos.
From stdpp Require Import base list strings gmap.

Local Open Scope Z_scope.

(** ** Python values *)

Abbreviation bytes := (list byte).

(** The exceptions the modelled code can raise.  [External] stands for an
    exception raised inside a collaborator, named by its class, a class that
    derives from [Exception]; [BaseExc] for one whose class derives from
    [BaseException] only: [asyncio.CancelledError], [KeyboardInterrupt],
    [SystemExit]. *)
Inductive exn : Type :=
| AttributeError
| IndexError
| ValueError
| OverflowError
| ZeroDivisionError
| External (name : string)
| BaseExc (name : string).

(** Whether [except Exception] catches it. *)
Definition is_Exception (e : exn) : bool :=
  match e with
  | BaseExc _ => false
  | _ => true
  end.

Inductive result (A : Type) : Type :=
| Ok (a : A)
| Err (e : exn).
Arguments Ok {A} a.
Arguments Err {A} e.

Definition rbind {A B} (r : result A) (k : A -> result B) : result B :=
  match r with
  | Ok a => k a
  | Err e => Err e
  end.

(** *** Floats *)

(** [AUDIO_PTIME = 0.02]: the binary64 number nearest to 1/50, which is what
    Python's parser makes of the literal. *)
Definition AUDIO_PTIME : float := 0x1.47ae147ae147bp-6%float.

(** [float(n)] for a Python int: round to nearest even; [OverflowError] when
    the magnitude is beyond binary64. *)
Definition float_of_int (n : Z) : result float :=
  let f := SF2Prim (binary_normalize prec emax n 0 false) in
  if PrimFloat.is_infinity f then Err OverflowError else Ok f.

(** [n * x] with [n] an int and [x] a float: [n] is converted first. *)
Definition int_mul_float (n : Z) (x : float) : result float :=
  rbind (float_of_int n) (fun f => Ok (PrimFloat.mul f x)).

(** [int(x)] for a float: truncation toward zero; infinities and NaN raise. *)
Definition int_of_float (x : float) : result Z :=
  match Prim2SF x with
  | S754_zero _ => Ok 0
  | S754_finite s m e =>
      let v := Z.shiftl (Z.pos m) e in
      Ok (if s then - v else v)
  | S754_infinity _ => Err OverflowError
  | S754_nan => Err ValueError
  end.

(** A float assigned to [frame.pts], which PyAV keeps as an [int64_t]: the
    integer part is stored, and a value that has none or is out of range is
    refused. *)
Definition int64_of_float (x : float) : result Z :=
  rbind (int_of_float x) (fun v =>
    if (- 2 ^ 63 <=? v) && (v <? 2 ^ 63) then Ok v else Err OverflowError).

(** The exact rational value of a finite float (0 for the others). *)
Definition Q_of_float (x : float) : Q :=
  match Prim2SF x with
  | S754_finite s m e =>
      let q := if (0 <=? e)%Z
               then inject_Z (Z.pos m * 2 ^ e)
               else Qmake (Z.pos m) (2 ^ Z.to_pos (- e)) in
      if s then Qopp q else q
  | _ => 0%Q
  end.

(** *** Slices of [bytes] *)

(** [b[:k]] and [b[k:]]: a negative [k] counts from the end, and both clamp
    to the ends of [b]. *)
Definition slice_index (n : nat) (k : Z) : nat :=
  if (0 <=? k)%Z then Z.to_nat k else Z.to_nat (Z.of_nat n + k).

Definition slice_to (b : bytes) (k : Z) : bytes :=
  take (slice_index (length b) k) b.

Definition slice_from (b : bytes) (k : Z) : bytes :=
  drop (slice_index (length b) k) b.

(** *** [str.split] and [int(str)] *)

Fixpoint is_prefix (p s : string) : bool :=
  match p, s with
  | EmptyString, _ => true
  | String a p', String b s' => if Ascii.eqb a b then is_prefix p' s' else false
  | String _ _, EmptyString => false
  end.

(** [split_go sep s skip cur]: scan [s] left to right; [cur] is the current
    piece, reversed; [skip] counts the characters of a separator occurrence
    still to be passed over. *)
Fixpoint split_go (sep s : string) (skip : nat) (cur : list ascii) : list string :=
  match s with
  | EmptyString => [string_of_list_ascii (rev cur)]
  | String c s' =>
      match skip with
      | S k => split_go sep s' k cur
      | O =>
          if is_prefix sep s
          then string_of_list_ascii (rev cur) :: split_go sep s' (String.length sep - 1) []
          else split_go sep s' 0 (c :: cur)
      end
  end.

(** [s.split(sep)] for a non-empty [sep]. *)
Definition str_split (s sep : string) : list string := split_go sep s 0 [].

(** The white space that [int] passes over at both ends of ASCII text:
    tab, line feed, vertical tab, form feed, carriage return and space. *)
Definition is_space (c : ascii) : bool :=
  let n := nat_of_ascii c in
  ((9 <=? n)%nat && (n <=? 13)%nat) || (n =? 32)%nat.

Definition digit_of (c : ascii) : option Z :=
  let n := nat_of_ascii c in
  if ((48 <=? n)%nat && (n <=? 57)%nat) then Some (Z.of_nat n - 48) else None.

Definition underscore : ascii := ascii_of_nat 95.

(** Digits with single underscores between them (PEP 515); [acc] is the value
    so far, [prev_digit] says whether the last character was a digit. *)
Fixpoint parse_digits (cs : list ascii) (acc : Z) (prev_digit : bool) : option Z :=
  match cs with
  | [] => if prev_digit then Some acc else None
  | c :: cs' =>
      match digit_of c with
      | Some d => parse_digits cs' (10 * acc + d) true
      | None =>
          if Ascii.eqb c underscore && prev_digit
          then parse_digits cs' acc false
          else None
      end
  end.

Fixpoint drop_space (cs : list ascii) : list ascii :=
  match cs with
  | c :: cs' => if is_space c then drop_space cs' else cs
  | [] => []
  end.

Definition strip (cs : list ascii) : list ascii :=
  rev (drop_space (rev (drop_space cs))).

(** CPython's limit on the decimal digits of an int converted from or to
    text ([sys.int_info.default_max_str_digits]); sign and underscores do not
    count. *)
Definition max_str_digits : nat := 4300.

Definition count_digits (cs : list ascii) : nat :=
  length (List.filter (fun c => match digit_of c with Some _ => true | None => false end) cs).

(** [int(s)] in base 10, on ASCII text: surrounding white space, one optional
    sign, then digits, no more of them than the limit allows. *)
Definition int_of_str (s : string) : result Z :=
  let body := strip (list_ascii_of_string s) in
  let '(neg, ds) :=
    match body with
    | c :: r =>
        if Ascii.eqb c (ascii_of_nat 45) then (true, r)
        else if Ascii.eqb c (ascii_of_nat 43) then (false, r)
        else (false, body)
    | [] => (false, [])
    end in
  if (max_str_digits <? count_digits ds)%nat then Err ValueError
  else
    match parse_digits ds 0 false with
    | Some v => Ok (if neg then - v else v)
    | None => Err ValueError
    end.

(** [fractions.Fraction(1, d)]: normalised to a positive denominator. *)
Definition Fraction_1 (d : Z) : result Q :=
  if (d =? 0)%Z then Err ZeroDivisionError
  else Ok (Qmake (Z.sgn d) (Z.to_pos (Z.abs d))).

(** ** The egress pipeline: [SendingTrack] and [run_send_track] *)

(** An [av.AudioFrame] as the loop leaves it: what it was constructed with,
    and the attributes assigned afterwards.  [pts] is PyAV's [int64_t]. *)
Record AudioFrame : Type := mkAudioFrame {
  format : string;
  layout : string;
  samples : Z;
  sample_rate : Z;
  plane0 : bytes;          (* frame.planes[0] after update() *)
  pts : Z;
  time_base : Q
}.

(** One item of [async for response in turn]: [response.data], and the
    [mime_type] of the first part's inline data. *)
Record Response : Type := mkResponse {
  data : option bytes;
  mime_type : string
}.

(** What the loop does to the outside: a log line, a frame handed to
    [send_track.queue], a pause of the task. *)
Inductive event : Type :=
| EvLog
| EvPut (frame : AudioFrame)
| EvSleep (delay : float).

(** The locals that live across iterations. *)
Record egress_state : Type := mkEgress {
  timestamp : float;
  buffer : bytes
}.

(** How an execution of a piece of the loop ends: it ran to its end, it
    raised, or the model's step budget ran out while it was still looping. *)
Inductive outcome : Type :=
| Finished
| Raised (e : exn)
| OutOfFuel.





(** The frames of a trace, in the order they were put. *)
Fixpoint frames_of (evs : list event) : list AudioFrame :=
  match evs with
  | [] => []
  | EvPut f :: evs' => f :: frames_of evs'
  | _ :: evs' => frames_of evs'
  end.

(** [sample_rate = int(mime_type.split('rate=')[1])] *)
Definition parse_rate (mime : string) : result Z :=
  match str_split mime "rate=" !! 1%nat with
  | Some piece => int_of_str piece
  | None => Err IndexError
  end.

(** [samples = int(sample_rate * AUDIO_PTIME)] *)
Definition frame_samples (rate : Z) : result Z :=
  rbind (int_mul_float rate AUDIO_PTIME) int_of_float.

(** The inner loop, [while len(buffer) / 2 >= samples: ...].  A length halved
    is exact in binary64 and Python compares a float with an int exactly, so
    the test is [samples * 2 <= len(buffer)].  Each iteration costs one unit
    of [fuel].

    [send_track] is [self.send_track] as the loop finds it when it puts a
    frame: [None] (the class attribute) until [on_track] takes an audio track,
    then that track's [SendingTrack].  [on_track] assigns it at most once, on
    the first audio track, and nothing resets it: a put that finds it is
    followed by puts that find the same, and a put that does not find it ends
    the loop.

    An iteration can raise at these places, in this order:
    [AudioFrame(..., samples=samples)] refuses a negative sample count; a
    frame of no samples has no plane, so [frame.planes[0]] fails; the buffer
    is cut; the counter is advanced; [frame.pts = timestamp] needs an int64;
    [Fraction(1, sample_rate)]; [self.send_track.queue] when there is no
    sending track.  [put] on the unbounded queue and [sleep] then return: the
    cancellation of the loop's task is outside this model. *)
Fixpoint frame_loop (fuel : nat) (send_track : option nat) (rate smp : Z) (st : egress_state)
  : outcome * egress_state * list event :=
  if (smp * 2 <=? Z.of_nat (length (buffer st)))%Z then
    match fuel with
    | O => (OutOfFuel, st, [])
    | S fuel' =>
        if (smp <? 0)%Z then (Raised OverflowError, st, [])
        else if (smp =? 0)%Z then (Raised IndexError, st, [])
        else
          let chunk := slice_to (buffer st) (smp * 2) in
          let buffer' := slice_from (buffer st) (smp * 2) in
          match int_mul_float rate AUDIO_PTIME with
          | Err e => (Raised e, mkEgress (timestamp st) buffer', [])
          | Ok step =>
              let timestamp' := PrimFloat.add (timestamp st) step in
              let st' := mkEgress timestamp' buffer' in
              match int64_of_float timestamp' with
              | Err e => (Raised e, st', [])
              | Ok stamp =>
                  match Fraction_1 rate with
                  | Err e => (Raised e, st', [])
                  | Ok tb =>
                      match send_track with
                      | None => (Raised AttributeError, st', [])
                      | Some _ =>
                          let frame := mkAudioFrame "s16" "mono" smp rate chunk stamp tb in
                          let '(o, st'', evs) := frame_loop fuel' send_track rate smp st' in
                          (o, st'', EvPut frame :: EvSleep AUDIO_PTIME :: evs)
                      end
                  end
              end
          end
    end
  else (Finished, st, []).

(** The body of [async for response in turn]. *)
Definition on_response (fuel : nat) (send_track : option nat) (response : Response)
           (st : egress_state)
  : outcome * egress_state * list event :=
  match data response with
  | None => (Finished, st, [EvLog])
  | Some payload =>
      match parse_rate (mime_type response) with
      | Err e => (Raised e, st, [])
      | Ok rate =>
          match frame_samples rate with
          | Err e => (Raised e, st, [])
          | Ok smp =>
              frame_loop fuel send_track rate smp
                (mkEgress (timestamp st) (buffer st ++ payload))
          end
      end
  end.

(** [async for response in turn] over the responses of one turn. *)
Fixpoint run_turn (fuel : nat) (send_track : option nat) (turn : list Response)
         (st : egress_state)
  : outcome * egress_state * list event :=
  match turn with
  | [] => (Finished, st, [])
  | response :: rest =>
      match on_response fuel send_track response st with
      | (Finished, st', evs) =>
          let '(o, st'', evs') := run_turn fuel send_track rest st' in
          (o, st'', evs ++ evs')
      | stopped => stopped
      end
  end.

(** [while True: turn = self.genai_session.receive(); ...] over the turns the
    session has delivered so far; [Finished] means the loop is waiting for the
    next one. *)
Fixpoint run_turns (fuel : nat) (send_track : option nat) (turns : list (list Response))
         (st : egress_state)
  : outcome * egress_state * list event :=
  match turns with
  | [] => (Finished, st, [])
  | turn :: rest =>
      match run_turn fuel send_track turn st with
      | (Finished, st', evs) =>
          let '(o, st'', evs') := run_turns fuel send_track rest st' in
          (o, st'', evs ++ evs')
      | stopped => stopped
      end
  end.

(** [run_send_track]: [timestamp = 0], [buffer = b''], then the loop.  The
    int [0] becomes [0.0] at the first [+=]. *)
Definition run_send_track (fuel : nat) (send_track : option nat) (turns : list (list Response))
  : outcome * egress_state * list event :=
  run_turns fuel send_track turns (mkEgress 0%float []).

(** ** Vocabulary of the egress properties *)











(** Every [put] of a trace is followed at once by a sleep of [AUDIO_PTIME]. *)
Fixpoint paced (evs : list event) : Prop :=
  match evs with
  | [] => True
  | EvPut _ :: rest =>
      match rest with
      | EvSleep d :: rest' => d = AUDIO_PTIME /\ paced rest'
      | _ => False
      end
  | _ :: rest => paced rest
  end.

(** A clock for a trace: the [i]-th event takes [dur i] seconds, the waiting
    that follows it included (for the next response, for the scheduler).
    [put_times dur i now evs] are the times at which the frames of [evs] are
    put, when the [i]-th event of the whole trace is the first of [evs] and
    starts at [now]. *)
Fixpoint put_times (dur : nat -> Q) (i : nat) (now : Q) (evs : list event) : list Q :=
  match evs with
  | [] => []
  | EvPut _ :: rest => now :: put_times dur (S i) (now + dur i)%Q rest
  | _ :: rest => put_times dur (S i) (now + dur i)%Q rest
  end.

(** Consecutive times are at least 20 ms apart. *)
Fixpoint spaced (ts : list Q) : Prop :=
  match ts with
  | t1 :: rest =>
      match rest with
      | t2 :: _ => (t1 + (1 # 50) <= t2)%Q /\ spaced rest
      | [] => True
      end
  | [] => True
  end.

(** A frame as the loop builds it for its own declared rate: signed 16-bit
    mono, a time base of one over the sample rate, the sample count of 20 ms
    at that rate, and two bytes per sample. *)
Definition well_formed_frame (f : AudioFrame) : Prop :=
  format f = "s16" /\ layout f = "mono" /\
  Fraction_1 (sample_rate f) = Ok (time_base f) /\
  frame_samples (sample_rate f) = Ok (samples f) /\
  (0 <= samples f -> Z.of_nat (length (plane0 f)) = 2 * samples f).

(** [sep] occurs somewhere in [s]. *)
Fixpoint occurs (sep s : string) : bool :=
  is_prefix sep s ||
  match s with
  | String _ s' => occurs sep s'
  | EmptyString => false
  end.

(** The counter after [n] additions of [step], as the loop performs them. *)
Fixpoint stamp_after (n : nat) (step ts : float) : float :=
  match n with
  | O => ts
  | S n' => stamp_after n' step (PrimFloat.add ts step)
  end.

(** The first [n] values the counter takes from [ts] on are such as
    [frame.pts] accepts. *)
Definition counter_fits (step ts : float) (n : nat) : bool :=
  forallb (fun i => match int64_of_float (stamp_after i step ts) with
                    | Ok _ => true
                    | Err _ => false
                    end) (seq 1 n).


Definition frame_count (smp : Z) (stream : bytes) : nat :=
  Z.to_nat (Z.of_nat (length stream) / (2 * smp)).

(** [c] is a decimal digit. *)
Definition is_digit (c : ascii) : bool :=
  match digit_of c with
  | Some _ => true
  | None => false
  end.

(** The decimal numeral of [|n|]. *)
Definition digits_of_int (n : Z) : string :=
  NilZero.string_of_uint (N.to_uint (Z.abs_N n)).

(** [str(n)] for a Python int, refused beyond the limit on digits. *)
Definition str_of_int (n : Z) : result string :=
  if (max_str_digits <? String.length (digits_of_int n))%nat then Err ValueError
  else Ok (if n <? 0 then String.append "-" (digits_of_int n) else digits_of_int n).

(** [f"audio/pcm;rate={sample_rate}"], the tag [run_recv_track] puts on the
    audio it sends. *)
Definition pcm_mime (sample_rate : Z) : result string :=
  rbind (str_of_int sample_rate) (fun digits => Ok (String.append "audio/pcm;rate=" digits)).

(** ** Sample inputs of the egress loop *)

(** The response of the scenario: 24 kHz PCM with the given payload. *)
Definition pcm_24000 (payload : bytes) : Response :=
  mkResponse (Some payload) "audio/pcm;rate=24000".

(** 1920 bytes of silence. *)
Definition silence_1920 : bytes := replicate 1920 "000"%byte.

(** Two turns at 24 kHz: 1000 bytes, a message without audio, 1920 bytes. *)
Definition two_turns : list (list Response) :=
  [[pcm_24000 (replicate 1000 "001"%byte); mkResponse None ""];
   [pcm_24000 silence_1920]].


(** A clock on which every event takes 25 ms. *)
Definition every_25ms : nat -> Q := fun _ => (1 # 40)%Q.

(** ** The connection lifecycle: [RTCConnection], [offer], [on_shutdown] *)

Local Open Scope nat_scope.

(** Objects are known by their identity, a number: [RTCConnection] instances,
    peer connections, AI sessions. *)

(** An instance attribute that has no class-level default: either it was
    never assigned, and reading it raises [AttributeError], or it is bound. *)
Inductive attr (A : Type) : Type :=
| Unset
| Bound (a : A).
Arguments Unset {A}.
Arguments Bound {A} a.

(** An [RTCConnection].  [recv_track], [send_track] and [pc] are class
    attributes set to [None]; [genai_session] is not declared by the class and
    exists on an instance only from the assignment in [_run]. *)
Record RTCConnection : Type := mkConnection {
  recv_track : option nat;
  send_track : option nat;
  pc : option nat;
  genai_session : attr nat
}.

(** [RTCConnection()] *)
Definition new_RTCConnection : RTCConnection := mkConnection None None None Unset.

(** The program's memory: the live instances, the module-level set
    [connections], and the next fresh identity. *)
Record store : Type := mkStore {
  objects : gmap nat RTCConnection;
  connections : gset nat;
  next_id : nat
}.

(** The coroutines of the collaborators that the code awaits. *)
Inductive call : Type :=
| RequestText                                      (* request.text() *)
| SetRemoteDescription (p : nat) (sdp : string)    (* pc.setRemoteDescription(offer) *)
| CreateAnswer (p : nat)                           (* pc.createAnswer() *)
| SetLocalDescription (p : nat) (answer : string)  (* pc.setLocalDescription(answer) *)
| LiveConnect                                      (* entering client.aio.live.connect(...) *)
| LiveExit (s : nat)                               (* leaving it *)
| EgressLoop (s : nat)                             (* run_send_track(), modelled above *)
| PcClose (p : nat)                                (* pc.close() *)
| SessionClose (s : nat)                           (* genai_session.close() *)
| SessionSend (s : nat) (message : string).        (* genai_session.send(input=..., end_of_turn=True) *)

(** What a call returns: the request body, the SDP of the answer, the SDP of
    [pc.localDescription] once it is set, the session. *)
Definition reply (c : call) : Type :=
  match c with
  | RequestText | CreateAnswer _ | SetLocalDescription _ _ => string
  | LiveConnect => nat
  | _ => unit
  end.

(** Tasks handed to the event loop. *)
Inductive task : Type :=
| Run (self : nat).       (* self._run() *)

(** [aiohttp]'s [web.Response(content_type=..., text=...)] *)
Record web_Response : Type := mkWebResponse {
  content_type : string;
  text : string
}.

Inductive lc_event : Type :=
| EvCall (c : call)           (* a collaborator's coroutine is awaited *)
| EvOn (p : nat) (name : string)   (* a handler is registered on the peer connection *)
| EvSpawn (t : task)          (* asyncio.ensure_future *)
| EvInfo (msg : string)       (* log_info *)
| EvResponse (r : web_Response) (* the handler's response goes back to the client *)
| EvTaskEnd (r : result unit). (* a task of the event loop returned or raised *)

(** A coroutine returning an [A]: a tree of the steps it takes. *)
Inductive coro (A : Type) : Type :=
| Return (a : A)
| Raise (e : exn)
| GetStore (k : store -> coro A)
| SetStore (s : store) (k : coro A)
| Emit (e : lc_event) (k : coro A)
| Await (c : call) (k : result (reply c) -> coro A)
| EnsureFuture (t : task) (k : coro A).
Arguments Return {A} a.
Arguments Raise {A} e.
Arguments GetStore {A} k.
Arguments SetStore {A} s k.
Arguments Emit {A} e k.
Arguments Await {A} c k.
Arguments EnsureFuture {A} t k.

Fixpoint bind {A B} (c : coro A) (f : A -> coro B) : coro B :=
  match c with
  | Return a => f a
  | Raise e => Raise e
  | GetStore k => GetStore (fun s => bind (k s) f)
  | SetStore s k => SetStore s (bind k f)
  | Emit e k => Emit e (bind k f)
  | Await c k => Await c (fun r => bind (k r) f)
  | EnsureFuture t k => EnsureFuture t (bind k f)
  end.

#[global] Instance coro_ret : MRet coro := @Return.
#[global] Instance coro_bind : MBind coro := fun A B f c => bind c f.
#[global] Instance coro_fmap : FMap coro := fun A B f c => bind c (fun a => Return (f a)).

(** [try: c  except Exception as e: h e]: an exception that does not derive
    from [Exception] passes through. *)
Fixpoint try_except {A} (c : coro A) (h : exn -> coro A) : coro A :=
  match c with
  | Return a => Return a
  | Raise e => if is_Exception e then h e else Raise e
  | GetStore k => GetStore (fun s => try_except (k s) h)
  | SetStore s k => SetStore s (try_except k h)
  | Emit e k => Emit e (try_except k h)
  | Await c k => Await c (fun r => try_except (k r) h)
  | EnsureFuture t k => EnsureFuture t (try_except k h)
  end.

(** Run [c] to its end and keep how it ended, whatever the exception. *)
Fixpoint capture {A} (c : coro A) : coro (result A) :=
  match c with
  | Return a => Return (Ok a)
  | Raise e => Return (Err e)
  | GetStore k => GetStore (fun s => capture (k s))
  | SetStore s k => SetStore s (capture k)
  | Emit e k => Emit e (capture k)
  | Await c k => Await c (fun r => capture (k r))
  | EnsureFuture t k => EnsureFuture t (capture k)
  end.

(** [await c]: the reply, or the exception re-raised in the caller. *)
Definition await (c : call) : coro (reply c) :=
  Await c (fun r => match r with Ok x => Return x | Err e => Raise e end).

Definition info (msg : string) : coro unit := Emit (EvInfo msg) (Return tt).

(** [async with LiveConnect as session: body session]: the exit runs whether
    the body returns or raises, and does not swallow the exception. *)
Definition async_with_live {A} (body : nat -> coro A) : coro A :=
  session ← await LiveConnect;
  r ← capture (body session);
  await (LiveExit session);;
  match r with
  | Ok a => Return a
  | Err e => Raise e
  end.

(** *** Attributes of [self] *)

Definition getattr_pc (self : nat) : coro (option nat) :=
  GetStore (fun st =>
    match objects st !! self with
    | Some o => Return (pc o)
    | None => Raise AttributeError
    end).

(** [self.genai_session]: [AttributeError] when it was never assigned. *)
Definition getattr_genai_session (self : nat) : coro nat :=
  GetStore (fun st =>
    match objects st !! self with
    | Some o =>
        match genai_session o with
        | Bound s => Return s
        | Unset => Raise AttributeError
        end
    | None => Raise AttributeError
    end).

Definition update_object (self : nat) (f : RTCConnection -> RTCConnection) : coro unit :=
  GetStore (fun st =>
    SetStore (mkStore (alter f self (objects st)) (connections st) (next_id st))
             (Return tt)).

(** [self.pc = p] *)
Definition setattr_pc (self p : nat) : coro unit :=
  update_object self (fun o =>
    mkConnection (recv_track o) (send_track o) (Some p) (genai_session o)).

(** [self.genai_session = s] *)
Definition setattr_genai_session (self s : nat) : coro unit :=
  update_object self (fun o =>
    mkConnection (recv_track o) (send_track o) (pc o) (Bound s)).

(** A fresh identity. *)
Definition fresh_id : coro nat :=
  GetStore (fun st =>
    SetStore (mkStore (objects st) (connections st) (S (next_id st)))
             (Return (next_id st))).

(** [connection = RTCConnection()] *)
Definition construct_RTCConnection : coro nat :=
  self ← fresh_id;
  GetStore (fun st =>
    SetStore (mkStore (<[self := new_RTCConnection]> (objects st)) (connections st) (next_id st))
             (Return self)).

(** [connections.add(self)], [connections.discard(self)], [connections.clear()] *)
Definition connections_add (self : nat) : coro unit :=
  GetStore (fun st =>
    SetStore (mkStore (objects st) ({[self]} ∪ connections st) (next_id st)) (Return tt)).

Definition connections_discard (self : nat) : coro unit :=
  GetStore (fun st =>
    SetStore (mkStore (objects st) (connections st ∖ {[self]}) (next_id st)) (Return tt)).

Definition connections_clear (st : store) : store :=
  mkStore (objects st) ∅ (next_id st).

(** *** The methods of [RTCConnection] and the request handlers *)

(** [RTCConnection.close] *)
Definition close (self : nat) : coro unit :=
  p ← getattr_pc self;
  match p with                                  (* if self.pc: *)
  | Some p => await (PcClose p)                 (*     await self.pc.close() *)
  | None => Return tt
  end;;
  s ← getattr_genai_session self;               (* if self.genai_session: *)
  await (SessionClose s).                       (*     await self.genai_session.close() *)

(** [on_message], the handler of a data channel's messages *)
Definition on_message (self : nat) (message : string) : coro unit :=
  s ← getattr_genai_session self;               (* if self.genai_session: *)
  await (SessionSend s message).

(** [on_connectionstatechange], with the [pc.connectionState] it reads *)
Definition on_connectionstatechange (self : nat) (connectionState : string) : coro unit :=
  info "Connection state is";;
  if bool_decide (connectionState = "failed" ∨ connectionState = "closed")
  then close self
  else Return tt.

(** [RTCConnection._run], the orchestrator.  The handlers it defines are
    registered on the peer connection; [on_track] and [run_recv_track] (the
    ingress direction) are modelled apart, below. *)
Definition _run (self : nat) : coro unit :=
  info "Connection started";;
  p ← getattr_pc self;
  match p with
  | None => Raise AttributeError                (* None has no attribute 'on' *)
  | Some p =>
      Emit (EvOn p "datachannel") (Return tt);;
      Emit (EvOn p "connectionstatechange") (Return tt);;
      Emit (EvOn p "track") (Return tt)
  end;;
  try_except
    (async_with_live (fun session =>
       info "Connected to GenAI session";;
       setattr_genai_session self session;;
       await (EgressLoop session)))
    (fun e => info "Error sending frame");;
  close self;;
  connections_discard self;;
  info "Connection stopped".

(** [RTCConnection.handle_offer] *)
Definition handle_offer (self : nat) : coro web_Response :=
  content ← await RequestText;
  p ← fresh_id;                                    (* RTCPeerConnection() *)
  setattr_pc self p;;
  EnsureFuture (Run self) (Return tt);;         (* asyncio.ensure_future(self._run()) *)
  await (SetRemoteDescription p content);;
  answer ← await (CreateAnswer p);
  sdp ← await (SetLocalDescription p answer);
  Return (mkWebResponse "application/sdp" sdp).

(** [offer], the handler of POST / *)
Definition offer : coro web_Response :=
  connection ← construct_RTCConnection;
  connections_add connection;;
  handle_offer connection.

(** The handler as aiohttp runs it for one request. *)
Definition serve_offer : coro unit :=
  response ← offer;
  Emit (EvResponse response) (Return tt).

(** The code of a task. *)
Definition task_body (t : task) : coro unit :=
  match t with
  | Run self => _run self
  end.

(** *** Running coroutines *)

(** How a collaborator answers an awaited call: at once, after the caller was
    suspended (other tasks run meanwhile), or never. *)
Inductive answer (X : Type) : Type :=
| Now (r : result X)
| Later (r : result X)
| Never.
Arguments Now {X} r.
Arguments Later {X} r.
Arguments Never {X}.

(** The collaborators: the answer to each call, which may depend on the
    moment (the number of events so far). *)
Definition environment : Type := nat -> forall c : call, answer (reply c).

Record world : Type := mkWorld {
  heap : store;
  trace : list lc_event;
  spawned : list task          (* scheduled by ensure_future, not yet started *)
}.

Definition emit (e : lc_event) (w : world) : world :=
  mkWorld (heap w) (trace w ++ [e]) (spawned w).

(** Where a coroutine stands after it was given the processor. *)
Inductive status (A : Type) : Type :=
| Done (r : result A)          (* returned or raised *)
| Suspended (k : coro A)       (* waiting; [k] is what it will resume with *)
| Blocked.                     (* waiting for an answer that never comes *)
Arguments Done {A} r.
Arguments Suspended {A} k.
Arguments Blocked {A}.

(** Run a coroutine until it ends or has to wait. *)
Fixpoint advance {A} (env : environment) (c : coro A) (w : world) : status A * world :=
  match c with
  | Return a => (Done (Ok a), w)
  | Raise e => (Done (Err e), w)
  | GetStore k => advance env (k (heap w)) w
  | SetStore s k => advance env k (mkWorld s (trace w) (spawned w))
  | Emit e k => advance env k (emit e w)
  | EnsureFuture t k =>
      advance env k (mkWorld (heap w) (trace w ++ [EvSpawn t]) (spawned w ++ [t]))
  | Await c k =>
      let w' := emit (EvCall c) w in
      match env (length (trace w)) c with
      | Now r => advance env (k r) w'
      | Later r => (Suspended (k r), w')
      | Never => (Blocked, w')
      end
  end.

(** The same collaborators when nothing else runs in between: a late answer
    is as good as an immediate one. *)
Definition eager (env : environment) : environment :=
  fun n c =>
    match env n c with
    | Later r => Now r
    | a => a
    end.

(** [await c] with no other task interleaved. *)
Definition run {A} (env : environment) (c : coro A) (w : world) : status A * world :=
  advance (eager env) c w.

(** The event loop: take the first ready coroutine, run it until it ends or
    waits; tasks it scheduled join the queue, then its continuation if it was
    suspended.  [fuel] bounds the number of turns. *)
Fixpoint event_loop (fuel : nat) (env : environment) (ready : list (coro unit)) (w : world)
  : list (coro unit) * world :=
  match fuel with
  | O => (ready, w)
  | S fuel' =>
      match ready with
      | [] => ([], w)
      | c :: rest =>
          let '(st, w') := advance env c w in
          let resumed := match st with Suspended k => [k] | _ => [] end in
          let ended := match st with Done r => [EvTaskEnd r] | _ => [] end in
          event_loop fuel' env
                     (rest ++ (task_body <$> spawned w') ++ resumed)
                     (mkWorld (heap w') (trace w' ++ ended) [])
      end
  end.

(** [asyncio.gather] over coroutines that do not share state, one after the
    other; the statuses are in the order of the arguments.  asyncio runs them
    interleaved: the order of the events of different coroutines in the trace
    is this model's own. *)
Fixpoint gather (env : environment) (coros : list (coro unit)) (w : world)
  : list (status unit) * world :=
  match coros with
  | [] => ([], w)
  | c :: rest =>
      let '(st, w') := run env c w in
      let '(sts, w'') := gather env rest w' in
      (st :: sts, w'')
  end.

(** The result of [await asyncio.gather(...)]: the first exception if one of
    the coroutines raised; otherwise it waits for all of them. *)
Fixpoint gathered (sts : list (status unit)) : status unit :=
  match sts with
  | [] => Done (Ok tt)
  | Done (Err e) :: _ => Done (Err e)
  | Done (Ok _) :: rest => gathered rest
  | _ :: rest =>
      match gathered rest with
      | Done (Err e) => Done (Err e)
      | _ => Blocked
      end
  end.

(** [on_shutdown] *)
Definition on_shutdown (env : environment) (w : world) : status unit * world :=
  let coros := close <$> elements (connections (heap w)) in   (* [conn.close() for conn in connections] *)
  let '(sts, w') := gather env coros w in                     (* await asyncio.gather over coros *)
  match gathered sts with
  | Done (Ok _) =>
      (Done (Ok tt), mkWorld (connections_clear (heap w')) (trace w') (spawned w'))
  | stopped => (stopped, w')
  end.

(** *** Vocabulary of the lifecycle properties *)

(** The collaborator calls [close] makes on a connection. *)
Definition close_calls (o : RTCConnection) : list lc_event :=
  match pc o with
  | Some p => [EvCall (PcClose p)]
  | None => []
  end ++
  match genai_session o with
  | Bound s => [EvCall (SessionClose s)]
  | Unset => []
  end.

(** The objects of the connections [selves], all with a session. *)
Definition all_live (st : store) (selves : list nat) (os : list RTCConnection) : Prop :=
  Forall2 (fun self o => objects st !! self = Some o /\
                         exists s, genai_session o = Bound s) selves os.

(** *** Some collaborators and some states *)

Definition reply_default (c : call) : reply c :=
  match c with
  | RequestText => "v=0"
  | CreateAnswer _ => "answer-sdp"
  | SetLocalDescription _ _ => "local-sdp"
  | LiveConnect => 7%nat
  | _ => tt
  end.

(** Every call succeeds, after a suspension. *)
Definition all_ok : environment := fun _ c => Later (Ok (reply_default c)).

(** The AI service does not answer the connection request. *)
Definition ai_pending : environment :=
  fun _ c =>
    match c as c0 return answer (reply c0) with
    | LiveConnect => Never
    | c0 => Later (Ok (reply_default c0))
    end.

(** The AI service refuses the connection. *)
Definition ai_refuses : environment :=
  fun _ c =>
    match c as c0 return answer (reply c0) with
    | LiveConnect => Later (Err (External "ConnectionRefusedError"))
    | c0 => Later (Ok (reply_default c0))
    end.

(** The call is up: the egress loop runs and does not end. *)
Definition call_up : environment :=
  fun _ c =>
    match c as c0 return answer (reply c0) with
    | EgressLoop _ => Never
    | c0 => Later (Ok (reply_default c0))
    end.

(** Closing the transport fails. *)
Definition transport_close_fails : environment :=
  fun _ c =>
    match c as c0 return answer (reply c0) with
    | PcClose _ => Later (Err (External "ConnectionError"))
    | c0 => Later (Ok (reply_default c0))
    end.

(** The remote description is rejected. *)
Definition bad_offer : environment :=
  fun _ c =>
    match c as c0 return answer (reply c0) with
    | SetRemoteDescription _ _ => Now (Err (External "ValueError"))
    | EgressLoop _ => Never
    | c0 => Later (Ok (reply_default c0))
    end.

(** The process at start. *)
Definition boot : world := mkWorld (mkStore ∅ ∅ 0) [] [].

(** One connection, object 0 with peer connection 1, registered; its AI
    session is [session]. *)
Definition one_connection (session : attr nat) : store :=
  mkStore {[ 0%nat := mkConnection None None (Some 1%nat) session ]} {[ 0%nat ]} 2.

(** Three calls in progress: objects 0, 1, 2 with peer connections 3, 4, 5. *)
Definition three_connections : store :=
  mkStore {[ 0 := mkConnection None None (Some 3) (Bound 7);
             1 := mkConnection None None (Some 4) (Bound 7);
             2 := mkConnection None None (Some 5) (Bound 7) ]}
          {[ 0; 1; 2 ]} 6.

(** The call ends: the egress loop stops with an exception. *)
Definition call_ends : environment :=
  fun _ c =>
    match c as c0 return answer (reply c0) with
    | EgressLoop _ => Later (Err (External "ConnectionClosed"))
    | c0 => Later (Ok (reply_default c0))
    end.

(** The egress task is cancelled. *)
Definition call_cancelled : environment :=
  fun _ c =>
    match c as c0 return answer (reply c0) with
    | EgressLoop _ => Later (Err (BaseExc "CancelledError"))
    | c0 => Later (Ok (reply_default c0))
    end.

(** ** The ingress direction: [on_track] and [run_recv_track] *)

(** A track announced by the peer connection. *)
Record Track : Type := mkTrack {
  track_id : nat;
  kind : string
}.

Inductive track_event : Type :=
| TkInfo (kind : string)        (* log_info("Track %s received", track.kind) *)
| TkAddTrack (p send : nat)     (* self.pc.addTrack(self.send_track) *)
| TkSpawnRecv                   (* asyncio.ensure_future(run_recv_track()) *)
| TkOnEnded (track : nat).      (* track.on("ended") *)

(** [on_track], a plain function: it runs to its end without giving up the
    processor.  [fresh] is the identity of the [SendingTrack()] it may
    create. *)
Definition on_track (fresh : nat) (track : Track) (self : RTCConnection)
  : result unit * RTCConnection * list track_event :=
  match recv_track self with
  | Some _ => (Ok tt, self, [TkInfo (kind track)])          (* if self.recv_track: return *)
  | None =>
      if bool_decide (kind track = "audio") then
        let self' := mkConnection (Some (track_id track)) (Some fresh)
                                  (pc self) (genai_session self) in
        match pc self with
        | Some p =>
            (Ok tt, self',
             [TkInfo (kind track); TkAddTrack p fresh; TkSpawnRecv; TkOnEnded (track_id track)])
        | None => (Err AttributeError, self', [TkInfo (kind track)])
        end
      else (Ok tt, self, [TkInfo (kind track); TkOnEnded (track_id track)])
  end.

(** The peer connection announces [tracks] one after the other; an exception
    of the handler does not keep the next announcement from being handled. *)
Fixpoint on_tracks (fresh : nat) (tracks : list Track) (self : RTCConnection)
  : RTCConnection * list track_event :=
  match tracks with
  | [] => (self, [])
  | track :: rest =>
      let '(_, self', evs) := on_track fresh track self in
      let '(self'', evs') := on_tracks (S fresh) rest self' in
      (self'', evs ++ evs')
  end.

(** What the handler does for a track it does not take. *)
Definition passed_over (track : Track) : list track_event :=
  [TkInfo (kind track); TkOnEnded (track_id track)].

(** [genai.types.BlobDict] *)
Record Blob : Type := mkBlob {
  blob_data : bytes;
  blob_mime_type : string
}.

Inductive ingress_event : Type :=
| InSend (s : nat) (blob : Blob)   (* await self.genai_session.send(blob) *)
| InInfo (msg : string).           (* log_info *)

(** How [run_recv_track] stands: it left its loop and returned, it waits for
    the next frame of the track, or it raised. *)
Inductive ingress_outcome : Type :=
| Stopped
| AwaitsFrame
| IngressRaised (e : exn).

Section Ingress.
(** The frames of the received track and PyAV's resampler are the
    collaborators' own: [AudioResampler] is the constructor, [resample] gives
    the frames that are ready, each as the bytes that
    [frame.to_ndarray().tobytes()] returns or the exception it raises. *)
Context {F R : Type}.
Variable AudioResampler : string -> string -> Z -> Z -> R.
Variable resample : R -> F -> result (list (result bytes)) * R.
(** The AI session at the [k]-th blob: the attribute [self.genai_session] as
    it is then, and what [send] answers. *)
Variable session_at : nat -> attr nat.
Variable send_at : nat -> result unit.

(** [for frame in resampler.resample(frame): ...], once the list is there *)
Fixpoint send_blobs (sample_rate : Z) (k : nat) (chunks : list (result bytes))
  : result nat * list ingress_event :=
  match chunks with
  | [] => (Ok k, [])
  | Err e :: _ => (Err e, [])
  | Ok data :: rest =>
      match pcm_mime sample_rate with
      | Err e => (Err e, [])
      | Ok mime =>
          let blob := mkBlob data mime in
          match session_at k with
          | Unset => (Err AttributeError, [])
          | Bound s =>
              match send_at k with
              | Ok _ =>
                  let '(r, evs) := send_blobs sample_rate (S k) rest in
                  (r, InSend s blob :: evs)
              | Err e => (Err e, [InSend s blob])
              end
          end
      end
  end.

(** [except Exception as e: log_info("Error receiving frame: %s", e); break],
    or the exception going on when it is not an [Exception]. *)
Definition except_Exception (e : exn) (evs : list ingress_event)
  : ingress_outcome * list ingress_event :=
  if is_Exception e then (Stopped, evs ++ [InInfo "Error receiving frame"])
  else (IngressRaised e, evs).

(** [while True: try: ... except Exception as e: log_info(...); break], on
    the frames the track delivers ([Err]: [recv] raises). *)
Fixpoint recv_loop (sample_rate : Z) (resampler : R) (k : nat) (frames : list (result F))
  : ingress_outcome * list ingress_event :=
  match frames with
  | [] => (AwaitsFrame, [])
  | Err e :: _ => except_Exception e []
  | Ok frame :: rest =>
      match resample resampler frame with
      | (Err e, _) => except_Exception e []
      | (Ok chunks, resampler') =>
          match send_blobs sample_rate k chunks with
          | (Ok k', evs) =>
              let '(o, evs') := recv_loop sample_rate resampler' k' rest in
              (o, evs ++ evs')
          | (Err e, evs) => except_Exception e evs
          end
      end
  end.

(** [run_recv_track] *)
Definition run_recv_track (frames : list (result F)) : ingress_outcome * list ingress_event :=
  let sample_rate := 16000%Z in
  match frame_samples sample_rate with
  | Err e => (IngressRaised e, [])
  | Ok frame_size =>
      recv_loop sample_rate (AudioResampler "s16" "mono" sample_rate frame_size) 0 frames
  end.

(** All that the resampler gives for [frames], when nothing fails. *)
Fixpoint resampled (resampler : R) (frames : list F) : option (list bytes) :=
  match frames with
  | [] => Some []
  | frame :: rest =>
      match resample resampler frame with
      | (Ok chunks, resampler') =>
          match mapM (fun c => match c with Ok b => Some b | Err _ => None end) chunks with
          | Some bs => (bs ++.) <$> resampled resampler' rest
          | None => None
          end
      | (Err _, _) => None
      end
  end.
End Ingress.

(** An event of the ingress loop that sends a blob of 16 kHz PCM. *)
Definition sends_pcm_16000 (ev : ingress_event) : Prop :=
  exists s data, ev = InSend s (mkBlob data "audio/pcm;rate=16000").

(** 20 ms of silence at 16 kHz. *)
Definition silence_640 : bytes := replicate 640 "000"%byte.

(** A resampler that lets 16 kHz frames through as they are. *)
Definition pass_through (_ : unit) (frame : bytes) : result (list (result bytes)) * unit :=
  (Ok [Ok frame], tt).

(** * Properties *)

Local Open Scope Z_scope.

(** ** Facts about the Python values *)

Lemma slice_index_nonneg (n : nat) (k : Z) :
  0 <= k -> slice_index n k = Z.to_nat k.
Proof.
  intros Hk. unfold slice_index.
  destruct (Z.leb_spec 0 k) as [_ | Hlt]; [reflexivity | lia].
Qed.


Lemma slice_to_length (b : bytes) (k : Z) :
  0 <= k <= Z.of_nat (length b) -> Z.of_nat (length (slice_to b k)) = k.
Proof.
  intros [H0 Hk]. unfold slice_to.
  rewrite slice_index_nonneg by assumption.
  rewrite length_take. lia.
Qed.

Lemma slice_from_length (b : bytes) (k : Z) :
  0 <= k <= Z.of_nat (length b) ->
  Z.of_nat (length (slice_from b k)) = Z.of_nat (length b) - k.
Proof.
  intros [H0 Hk]. unfold slice_from.
  rewrite slice_index_nonneg by assumption.
  rewrite length_drop. lia.
Qed.

(** ** Facts about the framing loop *)

(** The loop's test fails: it exits at once and changes nothing. *)
Lemma frame_loop_exit (fuel : nat) (send_track : option nat) (rate smp : Z)
      (st : egress_state) :
  Z.of_nat (length (buffer st)) < smp * 2 ->
  frame_loop fuel send_track rate smp st = (Finished, st, []).
Proof.
  intros Hlt. destruct fuel; cbn [frame_loop];
    destruct (Z.leb_spec (smp * 2) (Z.of_nat (length (buffer st)))); (lia || reflexivity).
Qed.

(** Take the tests of an iteration one after the other. *)
Ltac iteration :=
  cbn [frame_loop];
  repeat match goal with
         | |- context [(?a * 2 <=? ?b)%Z] => destruct (Z.leb_spec (a * 2) b)
         | |- context [(?a <? 0)%Z] => destruct (Z.ltb_spec a 0)
         | |- context [(?a =? 0)%Z] => destruct (Z.eqb_spec a 0)
         | |- context [match int_mul_float ?r ?x with _ => _ end] =>
             let step := fresh "step" in
             let Hstep := fresh "Hstep" in
             destruct (int_mul_float r x) as [step | ?] eqn:Hstep
         | |- context [match int64_of_float ?x with _ => _ end] =>
             let stamp := fresh "stamp" in
             let Hstamp := fresh "Hstamp" in
             destruct (int64_of_float x) as [stamp | ?] eqn:Hstamp
         | |- context [match Fraction_1 ?r with _ => _ end] =>
             let tb := fresh "tb" in
             let Htb := fresh "Htb" in
             destruct (Fraction_1 r) as [tb | ?] eqn:Htb
         | |- context [match ?t with Some _ => _ | None => _ end] =>
             is_var t; destruct t
         end.

(** One iteration, when nothing raises. *)
Lemma frame_loop_step (fuel : nat) (t : nat) (rate smp : Z) (st : egress_state)
      (step : float) (stamp : Z) (tb : Q) :
  0 < smp ->
  smp * 2 <= Z.of_nat (length (buffer st)) ->
  int_mul_float rate AUDIO_PTIME = Ok step ->
  int64_of_float (PrimFloat.add (timestamp st) step) = Ok stamp ->
  Fraction_1 rate = Ok tb ->
  frame_loop (S fuel) (Some t) rate smp st =
    let ts := PrimFloat.add (timestamp st) step in
    let '(o, st', evs) :=
      frame_loop fuel (Some t) rate smp (mkEgress ts (slice_from (buffer st) (smp * 2))) in
    (o, st',
     EvPut (mkAudioFrame "s16" "mono" smp rate (slice_to (buffer st) (smp * 2)) stamp tb)
       :: EvSleep AUDIO_PTIME :: evs).
Proof.
  intros Hpos Hle Hstep Hstamp Htb. cbn [frame_loop].
  destruct (Z.leb_spec (smp * 2) (Z.of_nat (length (buffer st)))); [| lia].
  destruct (Z.ltb_spec smp 0); [lia |].
  destruct (Z.eqb_spec smp 0); [lia |].
  rewrite Hstep. cbv zeta. rewrite Hstamp, Htb. reflexivity.
Qed.

(** ** The 24 kHz scenario *)

(** The 24 kHz stream of the AI session. *)
Lemma parse_rate_24000 : parse_rate "audio/pcm;rate=24000" = Ok 24000.
Proof. vm_compute. reflexivity. Qed.

Lemma frame_samples_24000 : frame_samples 24000 = Ok 480.
Proof. vm_compute. reflexivity. Qed.

Lemma step_24000 : int_mul_float 24000 AUDIO_PTIME = Ok 480%float.
Proof. vm_compute. reflexivity. Qed.

(** C1, as the code behaves: on a connection that has its sending track, one
    response of 1920 bytes at 24 kHz, from a fresh loop, yields exactly two
    frames of 480 samples, the first carrying the first 960 bytes with
    presentation timestamp 480, the second the last 960 bytes with
    presentation timestamp 960; nothing stays in the buffer.  The counter is
    advanced before it is stamped on the frame. *)
Theorem one_response_two_frames (t : nat) (payload : bytes) (fuel : nat) :
  length payload = 1920%nat ->
  run_send_track (S (S fuel)) (Some t) [[pcm_24000 payload]] =
    (Finished,
     mkEgress 960%float [],
     [EvPut (mkAudioFrame "s16" "mono" 480 24000 (take 960 payload) 480 (1 # 24000));
      EvSleep AUDIO_PTIME;
      EvPut (mkAudioFrame "s16" "mono" 480 24000 (drop 960 payload) 960 (1 # 24000));
      EvSleep AUDIO_PTIME]).
Proof.
  intros Hlen.
  unfold run_send_track, run_turns, run_turn, on_response, pcm_24000.
  cbn [data mime_type timestamp buffer].
  rewrite parse_rate_24000, frame_samples_24000.
  rewrite (frame_loop_step _ _ _ _ _ 480%float 480 (1 # 24000));
    [| lia | cbn [buffer]; rewrite length_app; simpl; lia | exact step_24000
     | vm_compute; reflexivity | reflexivity].
  cbn [timestamp buffer]. cbv zeta.
  rewrite (frame_loop_step _ _ _ _ _ 480%float 960 (1 # 24000));
    [| lia | cbn [buffer]; rewrite slice_from_length by (simpl; lia); simpl; lia
     | exact step_24000 | vm_compute; reflexivity | reflexivity].
  cbn [timestamp buffer]. cbv zeta.
  rewrite frame_loop_exit;
    [| cbn [buffer]; rewrite !slice_from_length;
       rewrite ?slice_from_length; simpl; lia].
  unfold slice_to, slice_from.
  rewrite !slice_index_nonneg by lia.
  change (Z.to_nat (480 * 2)) with 960%nat. simpl app.
  rewrite (take_ge (drop 960 payload)) by (rewrite length_drop; lia).
  rewrite (drop_ge (drop 960 payload)) by (rewrite length_drop; lia).
  reflexivity.
Qed.

Lemma one_response_two_frames_witness :
  length silence_1920 = 1920%nat /\
  run_send_track 2 (Some 0%nat) [[pcm_24000 silence_1920]] =
    (Finished,
     mkEgress 960%float [],
     [EvPut (mkAudioFrame "s16" "mono" 480 24000 (take 960 silence_1920) 480 (1 # 24000));
      EvSleep AUDIO_PTIME;
      EvPut (mkAudioFrame "s16" "mono" 480 24000 (drop 960 silence_1920) 960 (1 # 24000));
      EvSleep AUDIO_PTIME]).
Proof.
  split; [reflexivity |].
  apply (one_response_two_frames 0 silence_1920 0). reflexivity.
Defined.

(** C1 as the spec states it fails: on 1920 bytes of silence at 24 kHz, with
    the sending track in place, the two frames have 480 samples each, and
    their presentation timestamps are 480 and 960, not 0 and 480. *)
Lemma scenario3_timestamps_not_0_480 :
  map samples (frames_of (run_send_track 2 (Some 0%nat) [[pcm_24000 silence_1920]]).2)
    = [480; 480] /\
  map pts (frames_of (run_send_track 2 (Some 0%nat) [[pcm_24000 silence_1920]]).2)
    = [480; 960] /\
  map pts (frames_of (run_send_track 2 (Some 0%nat) [[pcm_24000 silence_1920]]).2)
    <> [0; 480].
Proof.
  split; [vm_compute; reflexivity |].
  split; [vm_compute; reflexivity |].
  vm_compute. discriminate.
Qed.

(** ** Lifting a property of one response to the whole loop *)

(** A relation between the state before and the result (outcome, state after,
    events) that holds of doing nothing, and of a piece that finished followed
    by another piece, holds of every execution of the loop as soon as it holds
    of every execution of its body. *)
Section Lifting.
Variable send_track : option nat.
Variable P : egress_state -> outcome * egress_state * list event -> Prop.
Hypothesis P_nil : forall st, P st (Finished, st, []).
Hypothesis P_app : forall st1 evs1 st2 o evs2 st3,
    P st1 (Finished, st2, evs1) -> P st2 (o, st3, evs2) ->
    P st1 (o, st3, evs1 ++ evs2).
Hypothesis P_response : forall fuel response st,
    P st (on_response fuel send_track response st).

Lemma run_turn_lift (fuel : nat) (turn : list Response) (st : egress_state) :
  P st (run_turn fuel send_track turn st).
Proof using P_nil P_app P_response.
  revert st. induction turn as [| response rest IH]; intros st; simpl.
  - apply P_nil.
  - pose proof (P_response fuel response st) as Hr.
    destruct (on_response fuel send_track response st) as [[o st'] evs].
    destruct o; try exact Hr.
    specialize (IH st').
    destruct (run_turn fuel send_track rest st') as [[o' st''] evs'].
    eapply P_app; eassumption.
Qed.

Lemma run_turns_lift (fuel : nat) (turns : list (list Response)) (st : egress_state) :
  P st (run_turns fuel send_track turns st).
Proof using P_nil P_app P_response.
  revert st. induction turns as [| turn rest IH]; intros st; simpl.
  - apply P_nil.
  - pose proof (run_turn_lift fuel turn st) as Hr.
    destruct (run_turn fuel send_track turn st) as [[o st'] evs].
    destruct o; try exact Hr.
    specialize (IH st').
    destruct (run_turns fuel send_track rest st') as [[o' st''] evs'].
    eapply P_app; eassumption.
Qed.
End Lifting.

Lemma frames_of_app (evs1 evs2 : list event) :
  frames_of (evs1 ++ evs2) = frames_of evs1 ++ frames_of evs2.
Proof.
  induction evs1 as [| e evs1 IH]; simpl; [reflexivity |].
  destruct e; simpl; rewrite IH; reflexivity.
Qed.



(** ** Termination and byte conservation of a framing pass *)


(** A positive frame size excludes the rate 0, for which [Fraction] raises. *)
Lemma positive_samples_time_base (rate smp : Z) :
  frame_samples rate = Ok smp -> 0 < smp ->
  exists tb, Fraction_1 rate = Ok tb.
Proof.
  intros Hs Hpos. unfold Fraction_1.
  destruct (Z.eqb_spec rate 0) as [-> | Hne]; [| eauto].
  vm_compute in Hs. injection Hs as <-. lia.
Qed.

(** With a positive frame size the inner loop ends, by exiting or by
    raising, within as many iterations as the buffer has bytes. *)
Lemma frame_loop_ends (send_track : option nat) (rate smp : Z) :
  0 < smp ->
  forall fuel st, (length (buffer st) <= fuel)%nat ->
  (frame_loop fuel send_track rate smp st).1.1 <> OutOfFuel.
Proof.
  intros Hpos. induction fuel as [| fuel IH]; intros st Hlen.
  - rewrite frame_loop_exit by lia. discriminate.
  - iteration; try discriminate; try lia.
    match goal with
    | |- context [frame_loop fuel ?tr rate smp ?st1] =>
        specialize (IH st1); destruct (frame_loop fuel tr rate smp st1) as [[o st'] evs]
    end.
    cbn [fst] in *. apply IH. cbn [buffer].
    pose proof (slice_from_length (buffer st) (smp * 2)). lia.
Qed.

(** When the inner loop exits, fewer bytes than one frame are left. *)
Lemma frame_loop_residual (fuel : nat) (send_track : option nat) (rate smp : Z)
      (st st' : egress_state) (evs : list event) :
  frame_loop fuel send_track rate smp st = (Finished, st', evs) ->
  Z.of_nat (length (buffer st')) < 2 * smp.
Proof.
  revert st evs. induction fuel as [| fuel IH]; intros st evs.
  - iteration; [discriminate |]. intros [= <- _]. lia.
  - iteration; try discriminate.
    + destruct (frame_loop fuel _ rate smp _) as [[o st2] evs2] eqn:Hrec.
      intros [= -> <- _]. eapply IH. exact Hrec.
    + intros [= <- _]. lia.
Qed.



(** ** The counter within int64 *)

Lemma stamp_after_S (n : nat) (step ts : float) :
  stamp_after (S n) step ts = stamp_after n step (PrimFloat.add ts step).
Proof. reflexivity. Qed.

Lemma stamp_after_add (k m : nat) (step ts : float) :
  stamp_after (k + m) step ts = stamp_after m step (stamp_after k step ts).
Proof.
  revert ts. induction k as [| k IH]; intros ts; [reflexivity |].
  cbn [Nat.add stamp_after]. apply IH.
Qed.

Lemma counter_fits_spec (step ts : float) (n : nat) :
  counter_fits step ts n = true <->
  forall i, (1 <= i <= n)%nat -> exists v, int64_of_float (stamp_after i step ts) = Ok v.
Proof.
  unfold counter_fits. rewrite forallb_forall. split.
  - intros H i Hi.
    assert (Hin : In i (seq 1 n)) by (apply in_seq; lia). specialize (H i Hin).
    destruct (int64_of_float (stamp_after i step ts)) as [v |]; [eauto | discriminate].
  - intros H i Hi. apply in_seq in Hi. destruct (H i ltac:(lia)) as (v & ->). reflexivity.
Qed.

(** The first stamp fits, and so do those that follow it. *)
Lemma counter_fits_S (step ts : float) (n : nat) :
  counter_fits step ts (S n) = true ->
  (exists v, int64_of_float (PrimFloat.add ts step) = Ok v) /\
  counter_fits step (PrimFloat.add ts step) n = true.
Proof.
  rewrite !counter_fits_spec. intros H. split.
  - apply (H 1%nat). lia.
  - intros i Hi. rewrite <- stamp_after_S. apply H. lia.
Qed.

Lemma counter_fits_split (step ts : float) (k m : nat) :
  counter_fits step ts (k + m) = true ->
  counter_fits step (stamp_after k step ts) m = true.
Proof.
  rewrite !counter_fits_spec. intros H i Hi.
  rewrite <- stamp_after_add. apply H. lia.
Qed.

Lemma counter_fits_le (step ts : float) (n m : nat) :
  counter_fits step ts n = true -> (m <= n)%nat -> counter_fits step ts m = true.
Proof.
  rewrite !counter_fits_spec. intros H Hle i Hi. apply H. lia.
Qed.

(** A stream has room for one frame more than it holds whole frames. *)
Lemma frame_count_room (smp : Z) (stream : bytes) :
  0 < smp ->
  Z.of_nat (length stream) < 2 * smp * (Z.of_nat (frame_count smp stream) + 1).
Proof.
  intros Hpos. unfold frame_count.
  rewrite Z2Nat.id by (apply Z.div_pos; lia).
  pose proof (Z.mul_succ_div_gt (Z.of_nat (length stream)) (2 * smp) ltac:(lia)). lia.
Qed.

Section FixedRate.
Variables rate smp : Z.
Variable step : float.
Variable t : nat.
Hypothesis Hsamples : frame_samples rate = Ok smp.
Hypothesis Hpositive : 0 < smp.
Hypothesis Hstep : int_mul_float rate AUDIO_PTIME = Ok step.

(** With the sending track in place and the counter within int64 for [n]
    more frames, a pass over a buffer that holds no more than [n] frames and
    [more] bytes exits; the counter then has room for the frames that [more]
    further bytes can make. *)
Lemma frame_loop_fixed_rate (fuel : nat) (st : egress_state) (n more : nat) :
  counter_fits step (timestamp st) n = true ->
  Z.of_nat (length (buffer st) + more) < 2 * smp * (Z.of_nat n + 1) ->
  (length (buffer st) <= fuel)%nat ->
  exists st' evs n',
    frame_loop fuel (Some t) rate smp st = (Finished, st', evs) /\
    counter_fits step (timestamp st') n' = true /\
    Z.of_nat (length (buffer st') + more) < 2 * smp * (Z.of_nat n' + 1).
Proof using Hsamples Hpositive Hstep.
  destruct (positive_samples_time_base _ _ Hsamples Hpositive) as (tb & Htb).
  revert st n. induction fuel as [| fuel IH]; intros st n Hfits Hroom Hlen.
  - exists st, [], n. rewrite frame_loop_exit by lia. auto.
  - destruct (Z.lt_ge_cases (Z.of_nat (length (buffer st))) (smp * 2)) as [Hlt | Hge].
    + exists st, [], n. rewrite frame_loop_exit by exact Hlt. auto.
    + destruct n as [| n]; [lia |].
      apply counter_fits_S in Hfits as [(stamp & Hstamp) Hfits].
      rewrite (frame_loop_step _ _ _ _ _ step stamp tb) by (lia || assumption).
      cbv zeta.
      pose proof (slice_from_length (buffer st) (smp * 2) ltac:(lia)) as Hcut.
      destruct (IH (mkEgress (PrimFloat.add (timestamp st) step)
                             (slice_from (buffer st) (smp * 2))) n)
        as (st' & evs & n' & Hrun & Hfits' & Hroom').
      { exact Hfits. }
      { cbn [buffer]. lia. }
      { cbn [buffer]. lia. }
      rewrite Hrun. eauto 6.
Qed.



End FixedRate.

(** C6: after a framing pass the accumulator holds strictly fewer bytes than
    one frame ([2 * samples] at the response's rate), whatever it held before,
    whatever the payload and whether or not the connection has a sending
    track: this holds whenever the inner loop exits.  With a positive frame
    size the pass does end, by exiting or by raising; with the sending track
    in place and the counter within int64 it exits. *)
Theorem framing_pass_leaves_less_than_a_frame
        (response : Response) (payload : bytes) (rate smp : Z) (st : egress_state) :
  data response = Some payload ->
  parse_rate (mime_type response) = Ok rate ->
  frame_samples rate = Ok smp ->
  (forall fuel send_track st' evs,
      on_response fuel send_track response st = (Finished, st', evs) ->
      Z.of_nat (length (buffer st')) < 2 * smp) /\
  (0 < smp ->
   forall fuel send_track, (length (buffer st) + length payload <= fuel)%nat ->
   (on_response fuel send_track response st).1.1 <> OutOfFuel) /\
  (0 < smp ->
   forall fuel t step,
     int_mul_float rate AUDIO_PTIME = Ok step ->
     counter_fits step (timestamp st) (frame_count smp (buffer st ++ payload)) = true ->
     (length (buffer st) + length payload <= fuel)%nat ->
   exists st' evs,
     on_response fuel (Some t) response st = (Finished, st', evs) /\
     Z.of_nat (length (buffer st')) < 2 * smp).
Proof.
  intros Hdata Hrate Hsmp.
  assert (Hpass : forall fuel send_track,
             on_response fuel send_track response st
             = frame_loop fuel send_track rate smp
                          (mkEgress (timestamp st) (buffer st ++ payload))).
  { intros fuel send_track. unfold on_response. rewrite Hdata, Hrate, Hsmp. reflexivity. }
  split; [| split].
  - intros fuel send_track st' evs. rewrite Hpass. apply frame_loop_residual.
  - intros Hpos fuel send_track Hfuel. rewrite Hpass.
    apply frame_loop_ends; [exact Hpos |]. cbn [buffer]. rewrite length_app. lia.
  - intros Hpos fuel t step Hstep Hfits Hfuel. rewrite Hpass.
    destruct (frame_loop_fixed_rate rate smp step t Hsmp Hpos Hstep fuel
                (mkEgress (timestamp st) (buffer st ++ payload))
                (frame_count smp (buffer st ++ payload)) 0)
      as (st' & evs & n' & Hrun & _ & _).
    { exact Hfits. }
    { cbn [buffer]. rewrite Nat.add_0_r. apply frame_count_room, Hpos. }
    { cbn [buffer]. rewrite length_app. lia. }
    exists st', evs. split; [exact Hrun |].
    eapply frame_loop_residual. exact Hrun.
Qed.

Lemma framing_pass_leaves_less_than_a_frame_witness :
  (forall fuel send_track st' evs,
      on_response fuel send_track (pcm_24000 silence_1920) (mkEgress 0%float [])
        = (Finished, st', evs) ->
      Z.of_nat (length (buffer st')) < 2 * 480) /\
  (0 < 480 ->
   forall fuel send_track,
     (length (buffer (mkEgress 0%float [])) + length silence_1920 <= fuel)%nat ->
     (on_response fuel send_track (pcm_24000 silence_1920) (mkEgress 0%float [])).1.1
       <> OutOfFuel) /\
  (0 < 480 ->
   forall fuel t step,
     int_mul_float 24000 AUDIO_PTIME = Ok step ->
     counter_fits step (timestamp (mkEgress 0%float []))
                  (frame_count 480 (buffer (mkEgress 0%float []) ++ silence_1920)) = true ->
     (length (buffer (mkEgress 0%float [])) + length silence_1920 <= fuel)%nat ->
   exists st' evs,
     on_response fuel (Some t) (pcm_24000 silence_1920) (mkEgress 0%float [])
       = (Finished, st', evs) /\
     Z.of_nat (length (buffer st')) < 2 * 480).
Proof.
  apply (framing_pass_leaves_less_than_a_frame
           (pcm_24000 silence_1920) silence_1920 24000 480 (mkEgress 0%float [])).
  - reflexivity.
  - exact parse_rate_24000.
  - exact frame_samples_24000.
Defined.




(** ** Presentation timestamps *)










(** ** Pacing *)

Lemma paced_app (evs1 evs2 : list event) :
  paced evs1 -> paced evs2 -> paced (evs1 ++ evs2).
Proof.
  revert evs1.
  assert (Hstrong : forall n evs1, (length evs1 <= n)%nat ->
                                   paced evs1 -> paced evs2 -> paced (evs1 ++ evs2)).
  { induction n as [| n IH]; intros evs1 Hlen H1 H2.
    - destruct evs1; [exact H2 | simpl in Hlen; lia].
    - destruct evs1 as [| e rest]; [exact H2 |].
      destruct e; simpl in *; try (apply IH; [lia | assumption | assumption]).
      destruct rest as [| e' rest']; [contradiction |].
      destruct e'; try contradiction.
      destruct H1 as [Hd H1]. simpl. split; [exact Hd |].
      apply IH; [simpl in Hlen; lia | assumption | assumption]. }
  intros evs1. apply (Hstrong (length evs1)). lia.
Qed.

Lemma frame_loop_paced (fuel : nat) (send_track : option nat) (rate smp : Z)
      (st : egress_state) :
  paced (frame_loop fuel send_track rate smp st).2.
Proof.
  revert st. induction fuel as [| fuel IH]; intros st.
  - iteration; exact I.
  - iteration; try exact I.
    match goal with
    | |- context [frame_loop fuel ?tr rate smp ?st1] =>
        specialize (IH st1); destruct (frame_loop fuel tr rate smp st1) as [[o st'] evs]
    end.
    simpl. split; [reflexivity | exact IH].
Qed.

Lemma on_response_paced (fuel : nat) (send_track : option nat) (response : Response)
      (st : egress_state) :
  paced (on_response fuel send_track response st).2.
Proof.
  unfold on_response.
  destruct (data response) as [payload |]; [| exact I].
  destruct (parse_rate (mime_type response)) as [rate | e]; [| exact I].
  destruct (frame_samples rate) as [smp | e]; [| exact I].
  apply frame_loop_paced.
Qed.

Lemma run_send_track_paced (fuel : nat) (send_track : option nat)
      (turns : list (list Response)) :
  paced (run_send_track fuel send_track turns).2.
Proof.
  apply (run_turns_lift send_track (fun _ r => paced r.2)).
  - intros st. exact I.
  - intros st1 evs1 st2 o evs2 st3. apply paced_app.
  - intros f r st. apply on_response_paced.
Qed.

(** The sleep is at least 20 ms: the binary64 [0.02] is just above 1/50. *)
Lemma ptime_at_least_20ms : (1 # 50 <= Q_of_float AUDIO_PTIME)%Q.
Proof. vm_compute. discriminate. Qed.

Section Clock.
Variable dur : nat -> Q.
Hypothesis dur_nonneg : forall i, (0 <= dur i)%Q.

Lemma put_times_later (evs : list event) (i : nat) (now : Q) :
  Forall (fun t => (now <= t)%Q) (put_times dur i now evs).
Proof using dur_nonneg.
  revert i now. induction evs as [| e evs IH]; intros i now; simpl; [constructor |].
  assert (Hrest : Forall (fun t => (now <= t)%Q) (put_times dur (S i) (now + dur i)%Q evs)).
  { eapply Forall_impl; [apply IH |]. intros t Ht. simpl in Ht.
    pose proof (dur_nonneg i). lra. }
  destruct e; try exact Hrest.
  constructor; [lra | exact Hrest].
Qed.

Lemma put_times_length (evs : list event) (i : nat) (now : Q) :
  length (put_times dur i now evs) = length (frames_of evs).
Proof.
  revert i now. induction evs as [| e evs IH]; intros i now; simpl; [reflexivity |].
  destruct e; simpl; rewrite IH; reflexivity.
Qed.

Lemma paced_spaced (n : nat) (evs : list event) (i : nat) (now : Q) :
  (length evs <= n)%nat ->
  paced evs ->
  (forall k d, evs !! k = Some (EvSleep d) -> (Q_of_float d <= dur (i + k))%Q) ->
  spaced (put_times dur i now evs).
Proof using dur_nonneg.
  revert evs i now. induction n as [| n IH]; intros evs i now Hlen Hp Hs.
  - destruct evs; [exact I | simpl in Hlen; lia].
  - destruct evs as [| e rest]; [exact I |].
    assert (Hshift : forall k d, rest !! k = Some (EvSleep d) ->
                                 (Q_of_float d <= dur (S i + k))%Q).
    { intros k d Hk. specialize (Hs (S k) d Hk).
      replace (S i + k)%nat with (i + S k)%nat by lia. exact Hs. }
    simpl in Hlen.
    destruct e; simpl in *; try (apply IH; [lia | assumption | assumption]).
    destruct rest as [| e' rest']; [contradiction |].
    destruct e'; try contradiction.
    destruct Hp as [-> Hp]. simpl.
    assert (Hrest : spaced (put_times dur (S (S i)) (now + dur i + dur (S i))%Q rest')).
    { apply IH; [simpl in Hlen; lia | exact Hp |].
      intros k d Hk. specialize (Hshift (S k) d Hk).
      replace (S (S i) + k)%nat with (S i + S k)%nat by lia. exact Hshift. }
    pose proof (put_times_later rest' (S (S i)) (now + dur i + dur (S i))%Q) as Hlater.
    destruct (put_times dur (S (S i)) (now + dur i + dur (S i))%Q rest') as [| t2 ts];
      [exact I |].
    split; [| exact Hrest].
    apply Forall_cons in Hlater as [Ht2 _].
    pose proof (Hs 1%nat AUDIO_PTIME eq_refl) as Hsleep.
    replace (i + 1)%nat with (S i) in Hsleep by lia.
    pose proof ptime_at_least_20ms. pose proof (dur_nonneg i). lra.
Qed.

(** In a spaced list the [j]-th time is at least [(j - i) * 20 ms] after
    the [i]-th. *)
Lemma spaced_apart (ts : list Q) (i j : nat) (ti tj : Q) :
  spaced ts -> (i <= j)%nat ->
  ts !! i = Some ti -> ts !! j = Some tj ->
  (inject_Z (Z.of_nat (j - i)) * (1 # 50) <= tj - ti)%Q.
Proof.
  revert i j. induction ts as [| t ts IH]; intros i j Hsp Hij Hi Hj; [discriminate |].
  assert (Hrest : spaced ts) by (destruct ts; [exact I | apply Hsp]).
  destruct i as [| i].
  - injection Hi as <-. clear IH.
    revert t ts Hsp Hrest tj Hij Hj.
    induction j as [| j IHj]; intros t ts Hsp Hrest tj Hij Hj.
    + injection Hj as <-. change (inject_Z (Z.of_nat (0 - 0))) with 0%Q. lra.
    + destruct ts as [| t2 ts']; [discriminate |].
      destruct Hsp as [Hgap Hsp'].
      assert (Hrest' : spaced ts') by (destruct ts'; [exact I | apply Hsp']).
      specialize (IHj t2 ts' Hsp' Hrest' tj (Nat.le_0_l j) Hj).
      replace (S j - 0)%nat with (S (j - 0)) by lia.
      rewrite Nat2Z.inj_succ, <- Z.add_1_r, inject_Z_plus.
      change (inject_Z 1) with 1%Q.
      generalize dependent (inject_Z (Z.of_nat (j - 0))). intros x Hx. lra.
  - destruct j as [| j]; [lia |].
    simpl in Hi, Hj. replace (S j - S i)%nat with (j - i)%nat by lia.
    apply (IH i j); [exact Hrest | lia | exact Hi | exact Hj].
Qed.
End Clock.

(** C8: every frame put on the queue is followed at once by
    [asyncio.sleep(AUDIO_PTIME)], whatever the responses and however they are
    cut.  Hence on every clock on which no event takes negative time and a
    sleep lasts at least its delay, the [j]-th frame is put at least
    [(j - i) * 20 ms] after the [i]-th: [N] frames take at least
    [(N - 1) * 20 ms]. *)
Theorem frames_not_faster_than_real_time
        (fuel : nat) (send_track : option nat) (turns : list (list Response))
        (dur : nat -> Q) :
  (forall i, (0 <= dur i)%Q) ->
  (forall i d, (run_send_track fuel send_track turns).2 !! i = Some (EvSleep d) ->
               (Q_of_float d <= dur i)%Q) ->
  paced (run_send_track fuel send_track turns).2 /\
  length (put_times dur 0 0 (run_send_track fuel send_track turns).2)
    = length (frames_of (run_send_track fuel send_track turns).2) /\
  forall i j ti tj,
    (i <= j)%nat ->
    put_times dur 0 0 (run_send_track fuel send_track turns).2 !! i = Some ti ->
    put_times dur 0 0 (run_send_track fuel send_track turns).2 !! j = Some tj ->
    (inject_Z (Z.of_nat (j - i)) * (1 # 50) <= tj - ti)%Q.
Proof.
  intros Hnonneg Hsleep.
  pose proof (run_send_track_paced fuel send_track turns) as Hpaced.
  split; [exact Hpaced |]. split; [apply put_times_length |].
  intros i j ti tj. apply spaced_apart.
  apply (paced_spaced dur Hnonneg (length (run_send_track fuel send_track turns).2));
    [lia | exact Hpaced | exact Hsleep].
Qed.

Lemma frames_not_faster_than_real_time_witness :
  paced (run_send_track 2 (Some 0%nat) [[pcm_24000 silence_1920]]).2 /\
  length (put_times every_25ms 0 0
                    (run_send_track 2 (Some 0%nat) [[pcm_24000 silence_1920]]).2)
    = length (frames_of (run_send_track 2 (Some 0%nat) [[pcm_24000 silence_1920]]).2) /\
  forall i j ti tj,
    (i <= j)%nat ->
    put_times every_25ms 0 0 (run_send_track 2 (Some 0%nat) [[pcm_24000 silence_1920]]).2 !! i
      = Some ti ->
    put_times every_25ms 0 0 (run_send_track 2 (Some 0%nat) [[pcm_24000 silence_1920]]).2 !! j
      = Some tj ->
    (inject_Z (Z.of_nat (j - i)) * (1 # 50) <= tj - ti)%Q.
Proof.
  apply (frames_not_faster_than_real_time 2 (Some 0%nat) [[pcm_24000 silence_1920]] every_25ms).
  - intros i. vm_compute. discriminate.
  - intros i d.
    destruct i as [| [| [| [| i]]]]; intros H; vm_compute in H;
      try discriminate H; injection H as <-; vm_compute; discriminate.
Defined.

Local Open Scope nat_scope.

(** ** Facts about running coroutines *)

(** Running [c] and then [f] on its result. *)
Lemma advance_bind {A B} (env : environment) (c : coro A) (f : A -> coro B) (w : world) :
  advance env (bind c f) w =
    match advance env c w with
    | (Done (Ok a), w') => advance env (f a) w'
    | (Done (Err e), w') => (Done (Err e), w')
    | (Suspended k, w') => (Suspended (bind k f), w')
    | (Blocked, w') => (Blocked, w')
    end.
Proof.
  revert w. induction c as [a | e | k IH | s k IH | ev k IH | c k IH | t k IH];
    intros w; simpl; try reflexivity; try apply IH.
  destruct (env (length (trace w)) c) as [r | r |]; try reflexivity. apply IH.
Qed.

(** Reading [self.genai_session] when it was never assigned raises, and does
    nothing else. *)
Lemma advance_getattr_unset {B} (env : environment) (self : nat) (o : RTCConnection)
      (f : nat -> coro B) (w : world) :
  objects (heap w) !! self = Some o ->
  genai_session o = Unset ->
  advance env (getattr_genai_session self ≫= f) w = (Done (Err AttributeError), w).
Proof.
  intros Hobj Hunset. unfold mbind, coro_bind.
  rewrite advance_bind. simpl. rewrite Hobj, Hunset. reflexivity.
Qed.

Lemma advance_getattr_bound {B} (env : environment) (self : nat) (o : RTCConnection)
      (s : nat) (f : nat -> coro B) (w : world) :
  objects (heap w) !! self = Some o ->
  genai_session o = Bound s ->
  advance env (getattr_genai_session self ≫= f) w = advance env (f s) w.
Proof.
  intros Hobj Hbound. unfold mbind, coro_bind.
  rewrite advance_bind. simpl. rewrite Hobj, Hbound. reflexivity.
Qed.

(** ** [on_message] *)

(** C10: a data-channel message that arrives while [genai_session] has not
    been assigned makes [on_message] raise [AttributeError]: the guard reads
    an attribute that does not exist.  Nothing is sent and nothing else
    happens; the message is not dropped silently. *)
Theorem message_before_session_raises
        (env : environment) (w : world) (self : nat) (o : RTCConnection) (message : string) :
  objects (heap w) !! self = Some o ->
  genai_session o = Unset ->
  advance env (on_message self message) w = (Done (Err AttributeError), w).
Proof.
  intros Hobj Hunset. unfold on_message.
  apply (advance_getattr_unset env self o _ w Hobj Hunset).
Qed.

Lemma message_before_session_raises_witness :
  advance all_ok (on_message 0 "hello") (mkWorld (one_connection Unset) [] []) =
    (Done (Err AttributeError), mkWorld (one_connection Unset) [] []).
Proof.
  apply (message_before_session_raises all_ok (mkWorld (one_connection Unset) [] []) 0
           (mkConnection None None (Some 1%nat) Unset) "hello").
  - reflexivity.
  - reflexivity.
Defined.

(** ** States reached by serving offers *)

(** These states are reached by serving one offer: with the call up, with
    the AI service not answering, and after it refused. *)
Lemma reach_call_up :
  heap (event_loop 10 call_up [serve_offer] boot).2 = one_connection (Bound 7%nat).
Proof. vm_compute. reflexivity. Qed.

Lemma reach_ai_pending :
  heap (event_loop 10 ai_pending [serve_offer] boot).2 = one_connection Unset.
Proof. vm_compute. reflexivity. Qed.

Lemma reach_ai_refused :
  heap (event_loop 10 ai_refuses [serve_offer] boot).2 = one_connection Unset.
Proof. vm_compute. reflexivity. Qed.

(** ** [close] *)

(** The first half of [close]: [if self.pc: await self.pc.close()]. *)
Lemma close_unfold (env : environment) (w : world) (self : nat) (o : RTCConnection) :
  objects (heap w) !! self = Some o ->
  advance env (close self) w =
    match pc o with
    | Some p =>
        match env (length (trace w)) (PcClose p) with
        | Now (Ok _) =>
            advance env (s ← getattr_genai_session self; await (SessionClose s))
                    (emit (EvCall (PcClose p)) w)
        | Now (Err e) => (Done (Err e), emit (EvCall (PcClose p)) w)
        | Later r =>
            (Suspended ((match r with Ok x => Return x | Err e => Raise e end);;
                        s ← getattr_genai_session self; await (SessionClose s)),
             emit (EvCall (PcClose p)) w)
        | Never => (Blocked, emit (EvCall (PcClose p)) w)
        end
    | None => advance env (s ← getattr_genai_session self; await (SessionClose s)) w
    end.
Proof.
  intros Hobj. unfold close, mbind at 1 2, coro_bind at 1 2.
  rewrite advance_bind. cbn [advance getattr_pc]. rewrite Hobj. cbn [advance].
  destruct (pc o) as [p |]; [| reflexivity].
  rewrite advance_bind. cbn [advance await].
  destruct (env (length (trace w)) (PcClose p)) as [[u | e] | r |]; reflexivity.
Qed.

(** C2 is violated on a connection whose AI session was never opened: with a
    transport that closes normally, [close] raises [AttributeError], the
    first time and again the second time, and leaves the memory as it was. *)
Theorem close_without_session_raises
        (env : environment) (w : world) (self : nat) (o : RTCConnection) :
  objects (heap w) !! self = Some o ->
  genai_session o = Unset ->
  (forall n p, eager env n (PcClose p) = Now (Ok tt)) ->
  (run env (close self) w).1 = Done (Err AttributeError) /\
  heap (run env (close self) w).2 = heap w /\
  (run env (close self) (run env (close self) w).2).1 = Done (Err AttributeError).
Proof.
  intros Hobj Hunset Hpc.
  assert (Hone : forall w0, heap w0 = heap w ->
            (run env (close self) w0).1 = Done (Err AttributeError) /\
            heap (run env (close self) w0).2 = heap w).
  { intros w0 Hheap. unfold run.
    rewrite (close_unfold _ w0 self o) by (rewrite Hheap; exact Hobj).
    destruct (pc o) as [p |].
    - rewrite Hpc.
      rewrite (advance_getattr_unset _ self o) by (simpl; rewrite ?Hheap; assumption).
      simpl. auto.
    - rewrite (advance_getattr_unset _ self o) by (rewrite ?Hheap; assumption).
      simpl. auto. }
  destruct (Hone w eq_refl) as [H1 H2].
  destruct (Hone (run env (close self) w).2 H2) as [H3 _].
  auto.
Qed.

Lemma close_without_session_raises_witness :
  (run all_ok (close 0) (mkWorld (one_connection Unset) [] [])).1 = Done (Err AttributeError) /\
  heap (run all_ok (close 0) (mkWorld (one_connection Unset) [] [])).2 = one_connection Unset /\
  (run all_ok (close 0)
       (run all_ok (close 0) (mkWorld (one_connection Unset) [] [])).2).1
    = Done (Err AttributeError).
Proof.
  apply (close_without_session_raises all_ok (mkWorld (one_connection Unset) [] []) 0
           (mkConnection None None (Some 1%nat) Unset)).
  - reflexivity.
  - reflexivity.
  - intros n p. reflexivity.
Defined.

(** C3, as the code behaves: on a connection with a transport and an AI
    session, [close] always attempts the transport first.  If that returns,
    closing the AI session is attempted next and its result is the result of
    [close], so a failure there comes after the transport was closed.  If
    closing the transport raises, [close] raises the same exception at once
    and closing the AI session is not attempted. *)
Theorem close_transport_then_session
        (env : environment) (w : world) (self : nat) (o : RTCConnection) (p s : nat) :
  objects (heap w) !! self = Some o ->
  pc o = Some p ->
  genai_session o = Bound s ->
  (exists rest, trace (run env (close self) w).2 = trace w ++ EvCall (PcClose p) :: rest) /\
  (eager env (length (trace w)) (PcClose p) = Now (Ok tt) ->
   trace (run env (close self) w).2 = trace w ++ [EvCall (PcClose p); EvCall (SessionClose s)] /\
   forall r, eager env (S (length (trace w))) (SessionClose s) = Now r ->
             (run env (close self) w).1 = Done r) /\
  (forall e, eager env (length (trace w)) (PcClose p) = Now (Err e) ->
   run env (close self) w = (Done (Err e), emit (EvCall (PcClose p)) w)).
Proof.
  intros Hobj Hpc Hbound. unfold run.
  rewrite (close_unfold _ w self o Hobj), Hpc.
  assert (Hsess : forall w1, heap w1 = heap w ->
            advance (eager env) (s0 ← getattr_genai_session self; await (SessionClose s0)) w1
            = match eager env (length (trace w1)) (SessionClose s) with
              | Now r => (Done r, emit (EvCall (SessionClose s)) w1)
              | Later r => (Suspended (match r with Ok x => Return x | Err e => Raise e end),
                            emit (EvCall (SessionClose s)) w1)
              | Never => (Blocked, emit (EvCall (SessionClose s)) w1)
              end).
  { intros w1 Hheap.
    rewrite (advance_getattr_bound _ self o s) by (rewrite ?Hheap; assumption).
    simpl. destruct (eager env (length (trace w1)) (SessionClose s)) as [[u | e] | r |];
      reflexivity. }
  split; [| split].
  - destruct (eager env (length (trace w)) (PcClose p)) as [[u | e] | r |];
      try (exists []; reflexivity).
    rewrite Hsess by reflexivity.
    exists [EvCall (SessionClose s)].
    destruct (eager env _ (SessionClose s)) as [r | r |]; simpl;
      rewrite <- app_assoc; reflexivity.
  - intros ->. rewrite Hsess by reflexivity. split.
    + destruct (eager env _ (SessionClose s)) as [r | r |]; simpl;
        rewrite <- app_assoc; reflexivity.
    + intros r Hr. simpl in *. rewrite length_app, Nat.add_1_r. simpl.
      rewrite Hr. reflexivity.
  - intros e ->. reflexivity.
Qed.

Lemma close_transport_then_session_witness :
  (exists rest,
      trace (run transport_close_fails (close 0) (mkWorld (one_connection (Bound 7%nat)) [] [])).2
      = [] ++ EvCall (PcClose 1) :: rest) /\
  (eager transport_close_fails 0 (PcClose 1) = Now (Ok tt) ->
   trace (run transport_close_fails (close 0) (mkWorld (one_connection (Bound 7%nat)) [] [])).2
     = [] ++ [EvCall (PcClose 1); EvCall (SessionClose 7)] /\
   forall r, eager transport_close_fails 1 (SessionClose 7) = Now r ->
             (run transport_close_fails (close 0)
                  (mkWorld (one_connection (Bound 7%nat)) [] [])).1 = Done r) /\
  (forall e, eager transport_close_fails 0 (PcClose 1) = Now (Err e) ->
   run transport_close_fails (close 0) (mkWorld (one_connection (Bound 7%nat)) [] [])
     = (Done (Err e), emit (EvCall (PcClose 1)) (mkWorld (one_connection (Bound 7%nat)) [] []))).
Proof.
  apply (close_transport_then_session transport_close_fails
           (mkWorld (one_connection (Bound 7%nat)) [] []) 0
           (mkConnection None None (Some 1%nat) (Bound 7%nat)) 1 7);
    reflexivity.
Defined.

(** C3 as the spec states it fails: when closing the transport raises, the
    attempt to close the AI session is not made. *)
Lemma session_close_skipped_when_transport_close_raises :
  run transport_close_fails (close 0) (mkWorld (one_connection (Bound 7%nat)) [] [])
    = (Done (Err (External "ConnectionError")),
       mkWorld (one_connection (Bound 7%nat)) [EvCall (PcClose 1)] []) /\
  EvCall (SessionClose 7)
    ∉ trace (run transport_close_fails (close 0)
                 (mkWorld (one_connection (Bound 7%nat)) [] [])).2.
Proof.
  split; [reflexivity |].
  intros Hin. vm_compute in Hin.
  apply list_elem_of_In in Hin. destruct Hin as [Heq | []]. discriminate Heq.
Qed.

(** ** [on_shutdown] *)

Section CollaboratorsCloseNormally.
Variable env : environment.
Hypothesis pc_close_returns : forall n p, eager env n (PcClose p) = Now (Ok tt).
Hypothesis session_close_returns : forall n s, eager env n (SessionClose s) = Now (Ok tt).

(** [close] on a connection whose session is assigned returns, after
    closing the transport (if there is one) and the session; it changes
    nothing in memory. *)
Lemma close_returns (w : world) (self : nat) (o : RTCConnection) (s : nat) :
  objects (heap w) !! self = Some o ->
  genai_session o = Bound s ->
  run env (close self) w =
    (Done (Ok tt), mkWorld (heap w) (trace w ++ close_calls o) (spawned w)).
Proof using pc_close_returns session_close_returns.
  intros Hobj Hbound. unfold run, close_calls.
  rewrite (close_unfold _ w self o Hobj), Hbound.
  destruct (pc o) as [p |].
  - rewrite pc_close_returns.
    rewrite (advance_getattr_bound _ self o s) by assumption.
    simpl. rewrite session_close_returns. unfold emit. simpl.
    rewrite <- app_assoc. reflexivity.
  - rewrite (advance_getattr_bound _ self o s) by assumption.
    simpl. rewrite session_close_returns. reflexivity.
Qed.

Lemma gather_close_returns (selves : list nat) (os : list RTCConnection) (w : world) :
  all_live (heap w) selves os ->
  exists sts,
    gather env (close <$> selves) w
      = (sts, mkWorld (heap w) (trace w ++ concat (close_calls <$> os)) (spawned w)) /\
    gathered sts = Done (Ok tt).
Proof using pc_close_returns session_close_returns.
  intros Hlive. revert os w Hlive. unfold all_live.
  induction selves as [| self selves IH]; intros os w Hlive.
  - apply Forall2_nil_inv_l in Hlive as ->. exists []. simpl.
    rewrite app_nil_r. destruct w; auto.
  - apply Forall2_cons_inv_l in Hlive as (o & os' & (Hobj & s & Hs) & Hrest & ->).
    rewrite fmap_cons. cbn [gather].
    rewrite (close_returns w self o s Hobj Hs).
    destruct (IH os' (mkWorld (heap w) (trace w ++ close_calls o) (spawned w)) Hrest)
      as (sts & Hg & Hok).
    rewrite Hg. exists (Done (Ok tt) :: sts). split; [| exact Hok].
    cbn [heap trace spawned]. rewrite fmap_cons, concat_cons, app_assoc. reflexivity.
Qed.
End CollaboratorsCloseNormally.

(** C7, as the code behaves: when every registered connection has its AI
    session assigned and the collaborators' [close] calls return, [on_shutdown]
    closes the transport and the session of every registered connection,
    returns, and leaves the registry empty. *)
Theorem shutdown_empties_registry (env : environment) (w : world) :
  (forall self, self ∈ connections (heap w) ->
     exists o s, objects (heap w) !! self = Some o /\ genai_session o = Bound s) ->
  (forall n p, eager env n (PcClose p) = Now (Ok tt)) ->
  (forall n s, eager env n (SessionClose s) = Now (Ok tt)) ->
  (on_shutdown env w).1 = Done (Ok tt) /\
  connections (heap (on_shutdown env w).2) = ∅ /\
  objects (heap (on_shutdown env w).2) = objects (heap w) /\
  forall self o,
    self ∈ connections (heap w) -> objects (heap w) !! self = Some o ->
    forall ev, ev ∈ close_calls o -> ev ∈ trace (on_shutdown env w).2.
Proof.
  intros Hlive Hpc Hsess.
  assert (Hos : exists os, all_live (heap w) (elements (connections (heap w))) os).
  { assert (Hall : Forall (fun self => self ∈ connections (heap w))
                          (elements (connections (heap w)))).
    { apply Forall_forall. intros self Hin. apply elem_of_elements, Hin. }
    unfold all_live.
    induction Hall as [| self selves Hin _ IH]; [exists []; constructor |].
    destruct IH as (os & Hos). destruct (Hlive self Hin) as (o & s & Hobj & Hs).
    exists (o :: os). constructor; eauto. }
  destruct Hos as (os & Hos).
  destruct (gather_close_returns env Hpc Hsess _ os w Hos) as (sts & Hg & Hok).
  unfold on_shutdown. rewrite Hg, Hok. cbn [fst snd heap trace connections_clear connections objects].
  repeat split.
  intros self o Hin Hobj ev Hev.
  apply elem_of_app. right. apply list_elem_of_In, in_concat.
  exists (close_calls o). split; [| apply list_elem_of_In, Hev].
  apply list_elem_of_In, list_elem_of_fmap. exists o. split; [reflexivity |].
  apply elem_of_elements in Hin.
  destruct (proj1 (list_elem_of_lookup _ _) Hin) as (i & Hi).
  destruct (Forall2_lookup_l _ _ _ _ _ Hos Hi) as (o' & Ho' & Hobj' & _).
  rewrite Hobj in Hobj'. injection Hobj' as <-.
  apply (list_elem_of_lookup_2 _ _ _ Ho').
Qed.

Lemma reach_three_connections :
  heap (event_loop 40 call_up [serve_offer; serve_offer; serve_offer] boot).2
    = three_connections.
Proof. vm_compute. reflexivity. Qed.

Lemma shutdown_empties_registry_witness :
  (on_shutdown all_ok (mkWorld three_connections [] [])).1 = Done (Ok tt) /\
  connections (heap (on_shutdown all_ok (mkWorld three_connections [] [])).2) = ∅ /\
  objects (heap (on_shutdown all_ok (mkWorld three_connections [] [])).2)
    = objects three_connections /\
  forall self o,
    self ∈ connections three_connections -> objects three_connections !! self = Some o ->
    forall ev, ev ∈ close_calls o ->
               ev ∈ trace (on_shutdown all_ok (mkWorld three_connections [] [])).2.
Proof.
  apply (shutdown_empties_registry all_ok (mkWorld three_connections [] [])).
  - intros self Hin. cbn [heap three_connections connections] in Hin.
    apply elem_of_union in Hin as [Hin | Hin];
      [apply elem_of_union in Hin as [Hin | Hin] |];
      apply elem_of_singleton in Hin; subst self;
      eexists _, 7; split; reflexivity.
  - intros n p. reflexivity.
  - intros n s. reflexivity.
Defined.

(** C7 as the spec states it fails: with one call in progress and a
    transport whose [close] raises, [on_shutdown] raises and the connection is
    still in the registry afterwards. *)
Lemma shutdown_leaves_registry_when_close_raises :
  (on_shutdown transport_close_fails (mkWorld (one_connection (Bound 7)) [] [])).1
    = Done (Err (External "ConnectionError")) /\
  connections (heap (on_shutdown transport_close_fails
                                 (mkWorld (one_connection (Bound 7)) [] [])).2)
    = {[ 0 ]} /\
  connections (heap (on_shutdown transport_close_fails
                                 (mkWorld (one_connection (Bound 7)) [] [])).2)
    <> ∅.
Proof.
  split; [vm_compute; reflexivity |]. split; [vm_compute; reflexivity |].
  intros Hempty.
  assert (Hin : 0 ∈ connections (heap (on_shutdown transport_close_fails
                                         (mkWorld (one_connection (Bound 7)) [] [])).2))
    by (apply elem_of_elements; vm_compute; left).
  rewrite Hempty in Hin. apply not_elem_of_empty in Hin. exact Hin.
Qed.

(** ** [handle_offer] and the orchestrator *)

(** Events are only ever added to the trace. *)
Lemma advance_trace_extends {A} (env : environment) (c : coro A) (w : world) :
  exists more, trace (advance env c w).2 = trace w ++ more.
Proof.
  revert w. induction c as [a | e | k IH | s k IH | ev k IH | c k IH | t k IH];
    intros w; simpl.
  - exists []. rewrite app_nil_r. reflexivity.
  - exists []. rewrite app_nil_r. reflexivity.
  - apply IH.
  - destruct (IH (mkWorld s (trace w) (spawned w))) as (more & Hmore).
    exists more. exact Hmore.
  - destruct (IH (emit ev w)) as (more & Hmore).
    exists (ev :: more). rewrite Hmore. simpl. rewrite <- app_assoc. reflexivity.
  - destruct (env (length (trace w)) c) as [r | r |].
    + destruct (IH r (emit (EvCall c) w)) as (more & Hmore).
      exists (EvCall c :: more). rewrite Hmore. simpl. rewrite <- app_assoc. reflexivity.
    + exists [EvCall c]. reflexivity.
    + exists [EvCall c]. reflexivity.
  - destruct (IH (mkWorld (heap w) (trace w ++ [EvSpawn t]) (spawned w ++ [t])))
      as (more & Hmore).
    exists (EvSpawn t :: more). rewrite Hmore. simpl. rewrite <- app_assoc. reflexivity.
Qed.

Lemma event_loop_trace_extends (fuel : nat) (env : environment)
      (ready : list (coro unit)) (w : world) :
  exists more, trace (event_loop fuel env ready w).2 = trace w ++ more.
Proof.
  revert ready w. induction fuel as [| fuel IH]; intros ready w; simpl.
  - exists []. rewrite app_nil_r. reflexivity.
  - destruct ready as [| c rest]; [exists []; rewrite app_nil_r; reflexivity |].
    destruct (advance_trace_extends env c w) as (more1 & H1).
    destruct (advance env c w) as [st w']. simpl in H1.
    match goal with |- context [event_loop fuel env ?r ?w0] =>
      destruct (IH r w0) as (more2 & H2); rewrite H2 end.
    simpl. rewrite H1, <- !app_assoc. eauto.
Qed.

(** Once it gets the processor, the orchestrator registers its handlers and
    asks for the AI session, before anything else can happen. *)
Lemma run_asks_for_session (env : environment) (w : world) (self : nat)
      (o : RTCConnection) (p : nat) :
  objects (heap w) !! self = Some o ->
  pc o = Some p ->
  exists more,
    trace (advance env (_run self) w).2
      = trace w ++ [EvInfo "Connection started"; EvOn p "datachannel";
                    EvOn p "connectionstatechange"; EvOn p "track";
                    EvCall LiveConnect] ++ more.
Proof.
  intros Hobj Hpc. unfold _run, mbind, coro_bind, info.
  cbn [bind advance getattr_pc heap emit]. rewrite Hobj. cbn [bind advance]. rewrite Hpc.
  cbn [bind advance emit try_except async_with_live mbind coro_bind await heap trace spawned].
  match goal with
  | |- context [match env ?n LiveConnect with _ => _ end] =>
      destruct (env n LiveConnect) as [r | r |]
  end.
  - match goal with |- context [advance env ?c ?w0] =>
      destruct (advance_trace_extends env c w0) as (more & Hmore); rewrite Hmore end.
    exists more. unfold emit. cbn [trace]. rewrite <- !app_assoc. reflexivity.
  - exists []. unfold emit. cbn [snd trace]. rewrite <- !app_assoc. reflexivity.
  - exists []. unfold emit. cbn [snd trace]. rewrite <- !app_assoc. reflexivity.
Qed.

(** One turn of the event loop. *)
Lemma event_loop_step (fuel : nat) (env : environment) (c : coro unit)
      (rest : list (coro unit)) (w : world) :
  event_loop (S fuel) env (c :: rest) w =
    event_loop fuel env
      (rest ++ (task_body <$> spawned (advance env c w).2) ++
       match (advance env c w).1 with Suspended k => [k] | _ => [] end)
      (mkWorld (heap (advance env c w).2)
               (trace (advance env c w).2 ++
                match (advance env c w).1 with Done r => [EvTaskEnd r] | _ => [] end)
               []).
Proof. cbn [event_loop]. destruct (advance env c w) as [st w']. reflexivity. Qed.

(** When the orchestrator is first in the queue, its request for the AI
    session is the next call made. *)
Lemma loop_runs_orchestrator (fuel : nat) (env : environment) (self : nat)
      (others : list (coro unit)) (w : world) (o : RTCConnection) (p : nat) :
  objects (heap w) !! self = Some o ->
  pc o = Some p ->
  exists more,
    trace (event_loop (S fuel) env (_run self :: others) w).2
      = trace w ++ [EvInfo "Connection started"; EvOn p "datachannel";
                    EvOn p "connectionstatechange"; EvOn p "track";
                    EvCall LiveConnect] ++ more.
Proof.
  intros Hobj Hpc. rewrite event_loop_step.
  destruct (run_asks_for_session env w self o p Hobj Hpc) as (more1 & H1).
  match goal with |- context [event_loop fuel env ?r ?w0] =>
    destruct (event_loop_trace_extends fuel env r w0) as (more2 & H2); rewrite H2 end.
  cbn [trace]. rewrite H1, <- !app_assoc. eauto.
Qed.

(** [self.pc] after [handle_offer] assigned it on a new connection. *)
Lemma pc_after_setattr (m : gmap nat RTCConnection) (self p : nat) :
  alter (fun o => mkConnection (recv_track o) (send_track o) (Some p) (genai_session o))
        self (<[self := new_RTCConnection]> m) !! self
  = Some (mkConnection None None (Some p) Unset).
Proof. rewrite lookup_alter_eq, lookup_insert_eq. reflexivity. Qed.

(** Run the handler up to its next call to a collaborator. *)
Ltac run_handler :=
  unfold serve_offer, offer, handle_offer, construct_RTCConnection, connections_add,
    fresh_id, setattr_pc, update_object, await, mbind, coro_bind;
  cbn [bind advance heap trace spawned objects connections next_id length app fst snd
       fmap list_fmap task_body];
  unfold emit;
  cbn [bind advance heap trace spawned objects connections next_id length app fst snd
       fmap list_fmap task_body].

(** Consider every way the collaborators can answer the calls of the
    negotiation. *)
Ltac answer_negotiation env :=
  repeat match goal with
         | |- context [match env ?n ?c with _ => _ end] =>
             destruct (env n c) as [[? | ?] | ? |]; run_handler
         end.

(** The handler has ended or waits; the orchestrator is the next task. *)
Ltac orchestrator_is_next env :=
  match goal with
  | |- context [event_loop (S ?f) env (_run ?self :: ?others) ?W] =>
      let more := fresh "more" in
      let Hmore := fresh "Hmore" in
      destruct (loop_runs_orchestrator f env self others W
                  (mkConnection None None (Some (S self)) Unset) (S self))
        as (more & Hmore);
      [apply pc_after_setattr | reflexivity | rewrite Hmore]
  end;
  cbn [trace app]; rewrite <- ?app_assoc; cbn [app];
  eexists; split; [reflexivity |];
  rewrite ?elem_of_cons, ?elem_of_app, ?elem_of_cons; tauto.

(** C5, as the code behaves: [handle_offer] schedules the orchestrator
    before it starts the negotiation and does not cancel it.  Once the body of
    the request was read, whatever the collaborators answer to
    [setRemoteDescription], [createAnswer] and [setLocalDescription] (a
    result, an exception, nothing), and whether they answer at once or later,
    the orchestrator gets its turn and asks for the AI session. *)
Theorem connect_does_not_depend_on_negotiation
        (env : environment) (st : store) (content : string) (fuel : nat) :
  eager env 0 RequestText = Now (Ok content) ->
  exists after,
    trace (event_loop (3 + fuel) env [serve_offer] (mkWorld st [] [])).2
      = [EvCall RequestText; EvSpawn (Run (next_id st));
         EvCall (SetRemoteDescription (S (next_id st)) content)] ++ after /\
    EvCall LiveConnect ∈ after.
Proof.
  intros Htext. unfold eager in Htext.
  change (3 + fuel) with (S (S (S fuel))).
  destruct (env 0 RequestText) as [[c | e] | [c | e] |] eqn:H0; try discriminate;
    injection Htext as ->.
  - rewrite event_loop_step. run_handler. rewrite H0. run_handler.
    answer_negotiation env; orchestrator_is_next env.
  - rewrite event_loop_step. run_handler. rewrite H0. run_handler.
    rewrite event_loop_step. run_handler.
    answer_negotiation env; orchestrator_is_next env.
Qed.

Lemma connect_does_not_depend_on_negotiation_witness :
  exists after,
    trace (event_loop (3 + 7) bad_offer [serve_offer] (mkWorld (mkStore ∅ ∅ 0) [] [])).2
      = [EvCall RequestText; EvSpawn (Run (next_id (mkStore ∅ ∅ 0)));
         EvCall (SetRemoteDescription (S (next_id (mkStore ∅ ∅ 0))) "v=0")] ++ after /\
    EvCall LiveConnect ∈ after.
Proof.
  apply (connect_does_not_depend_on_negotiation bad_offer (mkStore ∅ ∅ 0) "v=0" 7).
  reflexivity.
Defined.

(** C5 as the spec states it fails: the remote description is rejected, so
    the negotiation fails and the handler ends with the exception; the
    orchestrator, scheduled before, still runs, asks for the AI session and
    gets it. *)
Lemma session_opened_after_failed_negotiation :
  trace (event_loop 10 bad_offer [serve_offer] boot).2
    = [EvCall RequestText; EvSpawn (Run 0); EvCall (SetRemoteDescription 1 "v=0");
       EvTaskEnd (Err (External "ValueError"));
       EvInfo "Connection started"; EvOn 1 "datachannel";
       EvOn 1 "connectionstatechange"; EvOn 1 "track";
       EvCall LiveConnect; EvInfo "Connected to GenAI session";
       EvCall (EgressLoop 7)] /\
  objects (heap (event_loop 10 bad_offer [serve_offer] boot).2) !! 0
    = Some (mkConnection None None (Some 1) (Bound 7)).
Proof. split; vm_compute; reflexivity. Qed.

(** * Further properties of the egress loop *)

Local Open Scope Z_scope.

(** ** The frames of every execution *)

Lemma frame_loop_well_formed (fuel : nat) (send_track : option nat) (rate smp : Z)
      (st : egress_state) :
  frame_samples rate = Ok smp ->
  Forall well_formed_frame (frames_of (frame_loop fuel send_track rate smp st).2).
Proof.
  intros Hs. revert st. induction fuel as [| fuel IH]; intros st.
  - iteration; constructor.
  - iteration; try (constructor; fail).
    match goal with
    | |- context [frame_loop fuel ?tr rate smp ?st1] =>
        specialize (IH st1); destruct (frame_loop fuel tr rate smp st1) as [[o st'] evs]
    end.
    cbn [snd frames_of] in *.
    constructor; [| exact IH].
    unfold well_formed_frame. cbn [format layout sample_rate time_base samples plane0].
    repeat split; try assumption.
    intros _. rewrite slice_to_length; lia.
Qed.

Lemma run_turns_well_formed (fuel : nat) (send_track : option nat)
      (turns : list (list Response)) (st : egress_state) :
  Forall well_formed_frame (frames_of (run_turns fuel send_track turns st).2).
Proof.
  apply (run_turns_lift send_track (fun _ r => Forall well_formed_frame (frames_of r.2))).
  - intros st0. constructor.
  - intros st1 evs1 st2 o evs2 st3 H1 H2. cbn [snd] in *.
    rewrite frames_of_app. apply Forall_app. split; assumption.
  - intros f response st0. unfold on_response.
    destruct (data response) as [payload |]; [| constructor].
    destruct (parse_rate (mime_type response)) as [rate | e]; [| constructor].
    destruct (frame_samples rate) as [smp | e] eqn:Hs; [| constructor].
    apply frame_loop_well_formed. exact Hs.
Qed.

(** X1: in every execution of the egress loop, whatever the responses
    (rates may change from one to the next) and however far it got, every
    frame put on the queue is signed 16-bit mono, has the time base
    [Fraction(1, sample_rate)] of its own sample rate, the sample count
    [int(sample_rate * AUDIO_PTIME)], and carries two bytes per sample. *)
Theorem every_frame_is_well_formed
        (fuel : nat) (send_track : option nat) (turns : list (list Response)) :
  Forall well_formed_frame (frames_of (run_send_track fuel send_track turns).2).
Proof. apply run_turns_well_formed. Qed.

(** ** Frame sizes that are not positive *)

(** The rates from 0 to 49 Hz have a frame size of zero samples. *)
Lemma frame_samples_below_50 (rate : Z) :
  0 <= rate <= 49 -> frame_samples rate = Ok 0.
Proof.
  intros Hr.
  assert (Hall : forallb (fun r => match frame_samples r with
                                   | Ok 0 => true
                                   | _ => false
                                   end) (Z.of_nat <$> seq 0 50) = true)
    by (vm_compute; reflexivity).
  rewrite forallb_forall in Hall.
  assert (Hin : In rate (Z.of_nat <$> seq 0 50)).
  { apply in_map_iff. exists (Z.to_nat rate). split; [lia |]. apply in_seq. lia. }
  specialize (Hall rate Hin).
  destruct (frame_samples rate) as [[| ? | ?] | ?]; try discriminate. reflexivity.
Qed.

(** With a frame size that is not positive the loop's test holds whatever
    the buffer, and the first iteration raises before it cuts anything. *)
Lemma frame_loop_refuses (fuel : nat) (send_track : option nat) (rate smp : Z)
      (st : egress_state) :
  smp <= 0 ->
  frame_loop (S fuel) send_track rate smp st
    = (Raised (if smp <? 0 then OverflowError else IndexError), st, []).
Proof.
  intros Hsmp. cbn [frame_loop].
  destruct (Z.leb_spec (smp * 2) (Z.of_nat (length (buffer st)))); [| lia].
  destruct (Z.ltb_spec smp 0); [reflexivity |].
  destruct (Z.eqb_spec smp 0); [reflexivity | lia].
Qed.

(** X2: a response that declares a rate from 0 to 49 Hz has a frame size of
    zero samples and makes the loop raise [IndexError], at [frame.planes[0]]
    of a frame that has no plane, in the first iteration of the framing pass:
    the payload has been appended to the buffer, nothing was cut from it, the
    counter has not moved and no frame is put on the queue. *)
Theorem rate_below_50_raises_IndexError
        (response : Response) (payload : bytes) (rate : Z) (send_track : option nat)
        (st : egress_state) (fuel : nat) :
  data response = Some payload ->
  parse_rate (mime_type response) = Ok rate ->
  0 <= rate <= 49 ->
  on_response (S fuel) send_track response st
    = (Raised IndexError, mkEgress (timestamp st) (buffer st ++ payload), []).
Proof.
  intros Hdata Hrate Hr. unfold on_response.
  rewrite Hdata, Hrate, (frame_samples_below_50 rate Hr).
  apply (frame_loop_refuses fuel send_track rate 0). lia.
Qed.

Lemma rate_below_50_raises_IndexError_witness :
  on_response 1 (Some 0%nat) (mkResponse (Some silence_1920) "audio/pcm;rate=10")
              (mkEgress 0%float [])
    = (Raised IndexError,
       mkEgress (timestamp (mkEgress 0%float [])) (buffer (mkEgress 0%float []) ++ silence_1920),
       []).
Proof.
  apply (rate_below_50_raises_IndexError
           (mkResponse (Some silence_1920) "audio/pcm;rate=10") silence_1920 10
           (Some 0%nat) (mkEgress 0%float []) 0).
  - reflexivity.
  - vm_compute. reflexivity.
  - lia.
Defined.

(** X3: a response whose declared rate gives a negative frame size makes the
    loop raise [OverflowError], at [AudioFrame(..., samples=samples)], in the
    first iteration of the framing pass: the payload has been appended to the
    buffer, nothing was cut from it and no frame is put on the queue. *)
Theorem negative_frame_size_raises_OverflowError
        (response : Response) (payload : bytes) (rate smp : Z) (send_track : option nat)
        (st : egress_state) (fuel : nat) :
  data response = Some payload ->
  parse_rate (mime_type response) = Ok rate ->
  frame_samples rate = Ok smp ->
  smp < 0 ->
  on_response (S fuel) send_track response st
    = (Raised OverflowError, mkEgress (timestamp st) (buffer st ++ payload), []).
Proof.
  intros Hdata Hrate Hsmp Hneg. unfold on_response. rewrite Hdata, Hrate, Hsmp.
  rewrite (frame_loop_refuses fuel send_track rate smp) by lia.
  destruct (Z.ltb_spec smp 0); [reflexivity | lia].
Qed.

Lemma negative_frame_size_raises_OverflowError_witness :
  on_response 1 (Some 0%nat) (mkResponse (Some silence_1920) "audio/pcm;rate=-100")
              (mkEgress 0%float [])
    = (Raised OverflowError,
       mkEgress (timestamp (mkEgress 0%float [])) (buffer (mkEgress 0%float []) ++ silence_1920),
       []).
Proof.
  apply (negative_frame_size_raises_OverflowError
           (mkResponse (Some silence_1920) "audio/pcm;rate=-100") silence_1920 (-100) (-2)
           (Some 0%nat) (mkEgress 0%float []) 0).
  - reflexivity.
  - vm_compute. reflexivity.
  - vm_compute. reflexivity.
  - lia.
Defined.

(** ** A connection without a sending track *)



(** ** Parsing the rate *)

(** A string in which the separator does not occur is split into one piece,
    itself. *)
Lemma split_go_no_occurrence (sep s : string) (cur : list ascii) :
  occurs sep s = false ->
  split_go sep s 0 cur = [string_of_list_ascii (rev cur ++ list_ascii_of_string s)].
Proof.
  revert cur. induction s as [| c s IH]; intros cur Hocc.
  - simpl. rewrite app_nil_r. reflexivity.
  - cbn [occurs] in Hocc. apply orb_false_elim in Hocc as [Hpre Hrest].
    cbn [split_go]. rewrite Hpre, (IH _ Hrest). cbn [rev list_ascii_of_string].
    rewrite <- app_assoc. reflexivity.
Qed.

Lemma parse_rate_without_rate (mime : string) :
  occurs "rate=" mime = false -> parse_rate mime = Err IndexError.
Proof.
  intros Hocc. unfold parse_rate, str_split.
  rewrite (split_go_no_occurrence _ _ _ Hocc). reflexivity.
Qed.

(** X4: an audio response whose mime type does not contain [rate=] makes the
    loop raise [IndexError] (the list [split] returns has one element).  The
    loop ends there: the payload is not appended, the counter and the buffer
    are as they were, nothing is put on the queue, and the responses and
    turns that follow are not processed. *)
Theorem missing_rate_raises_IndexError
        (response : Response) (payload : bytes) (rest : list Response)
        (later : list (list Response)) (send_track : option nat) (st : egress_state)
        (fuel : nat) :
  data response = Some payload ->
  occurs "rate=" (mime_type response) = false ->
  run_turns fuel send_track ((response :: rest) :: later) st = (Raised IndexError, st, []).
Proof.
  intros Hdata Hocc. cbn [run_turns run_turn]. unfold on_response.
  rewrite Hdata, (parse_rate_without_rate _ Hocc). reflexivity.
Qed.

Lemma missing_rate_raises_IndexError_witness :
  run_turns 10 (Some 0%nat)
            ((mkResponse (Some silence_1920) "audio/pcm" :: [pcm_24000 silence_1920])
               :: two_turns) (mkEgress 0%float [])
    = (Raised IndexError, mkEgress 0%float [], []).
Proof.
  apply (missing_rate_raises_IndexError (mkResponse (Some silence_1920) "audio/pcm")
           silence_1920); reflexivity.
Defined.

Lemma digits_of_uint (d : Decimal.uint) :
  Forall (fun c => is_digit c = true) (list_ascii_of_string (NilEmpty.string_of_uint d)).
Proof. induction d; simpl; constructor; (reflexivity || assumption). Qed.

Lemma parse_digits_acc (d : Decimal.uint) (acc : positive) :
  parse_digits (list_ascii_of_string (NilEmpty.string_of_uint d)) (Z.pos acc) true
  = Some (Z.pos (Pos.of_uint_acc d acc)).
Proof.
  revert acc. induction d as [| d IH | d IH | d IH | d IH | d IH | d IH | d IH | d IH | d IH | d IH];
    intros acc; [reflexivity | ..];
    cbn [NilEmpty.string_of_uint list_ascii_of_string parse_digits Pos.of_uint_acc];
    match goal with
    | |- context [digit_of ?c] =>
        let v := eval vm_compute in (digit_of c) in change (digit_of c) with v
    end;
    cbv iota beta; rewrite <- IH; f_equal; lia.
Qed.

Lemma parse_digits_uint (d : Decimal.uint) (prev_digit : bool) :
  d <> Decimal.Nil \/ prev_digit = true ->
  parse_digits (list_ascii_of_string (NilEmpty.string_of_uint d)) 0 prev_digit
  = Some (Z.of_N (Pos.of_uint d)).
Proof.
  revert prev_digit.
  induction d as [| d IH | d IH | d IH | d IH | d IH | d IH | d IH | d IH | d IH | d IH];
    intros prev_digit Hok.
  - destruct Hok as [Hnil | ->]; [destruct (Hnil eq_refl) | reflexivity].
  - cbn [NilEmpty.string_of_uint list_ascii_of_string parse_digits Pos.of_uint].
    change (digit_of "0") with (Some 0). cbv iota beta.
    apply IH. right. reflexivity.
  - apply (parse_digits_acc d 1).
  - apply (parse_digits_acc d 2).
  - apply (parse_digits_acc d 3).
  - apply (parse_digits_acc d 4).
  - apply (parse_digits_acc d 5).
  - apply (parse_digits_acc d 6).
  - apply (parse_digits_acc d 7).
  - apply (parse_digits_acc d 8).
  - apply (parse_digits_acc d 9).
Qed.

Lemma digit_is_not_space (c : ascii) : is_digit c = true -> is_space c = false.
Proof.
  unfold is_digit, digit_of, is_space.
  destruct (Nat.leb_spec 48 (nat_of_ascii c)); [| discriminate].
  destruct (Nat.leb_spec (nat_of_ascii c) 57); [| discriminate].
  intros _.
  destruct (Nat.leb_spec 9 (nat_of_ascii c)); [| lia].
  destruct (Nat.leb_spec (nat_of_ascii c) 13); [lia |].
  destruct (Nat.eqb_spec (nat_of_ascii c) 32); [lia | reflexivity].
Qed.

(** White space is stripped from neither end of text that has none. *)
Lemma strip_no_space (cs : list ascii) :
  Forall (fun c => is_space c = false) cs -> strip cs = cs.
Proof.
  intros Hall. unfold strip.
  assert (Hdrop : forall l, Forall (fun c => is_space c = false) l -> drop_space l = l).
  { intros l Hl. destruct Hl as [| c l Hc _]; [reflexivity |]. simpl. rewrite Hc. reflexivity. }
  rewrite (Hdrop cs Hall), (Hdrop (rev cs)); [apply rev_involutive |].
  apply Forall_forall. intros c Hin. apply list_elem_of_In, in_rev in Hin.
  rewrite Forall_forall in Hall. apply Hall, list_elem_of_In, Hin.
Qed.

Lemma count_digits_all (cs : list ascii) :
  Forall (fun c => is_digit c = true) cs -> count_digits cs = length cs.
Proof.
  unfold count_digits, is_digit.
  induction 1 as [| c cs Hc _ IH]; [reflexivity |].
  cbn [List.filter]. rewrite Hc. cbn [length]. rewrite IH. reflexivity.
Qed.

Lemma length_list_ascii (s : string) :
  length (list_ascii_of_string s) = String.length s.
Proof. induction s as [| c s IH]; simpl; [| rewrite IH]; reflexivity. Qed.

(** [int] of a decimal numeral, with or without a minus sign, within the
    limit on digits. *)
Lemma int_of_str_uint (d : Decimal.uint) (neg : bool) :
  d <> Decimal.Nil ->
  (String.length (NilEmpty.string_of_uint d) <= max_str_digits)%nat ->
  int_of_str (if neg then String "-" (NilEmpty.string_of_uint d)
              else NilEmpty.string_of_uint d)
  = Ok (if neg then - Z.of_N (Pos.of_uint d) else Z.of_N (Pos.of_uint d)).
Proof.
  intros Hnn Hlen. unfold int_of_str.
  pose proof (digits_of_uint d) as Hdigits.
  assert (Hnospace : Forall (fun c => is_space c = false)
                            (list_ascii_of_string (NilEmpty.string_of_uint d))).
  { eapply Forall_impl; [exact Hdigits |]. intros c. apply digit_is_not_space. }
  assert (Hcount : (max_str_digits
                    <? count_digits (list_ascii_of_string (NilEmpty.string_of_uint d)))%nat
                   = false).
  { rewrite count_digits_all by exact Hdigits. rewrite length_list_ascii.
    apply Nat.ltb_ge, Hlen. }
  pose proof (parse_digits_uint d false (or_introl Hnn)) as Hp.
  destruct neg.
  - cbn [list_ascii_of_string].
    rewrite strip_no_space by (constructor; [reflexivity | exact Hnospace]).
    change (Ascii.eqb "-" (ascii_of_nat 45)) with true. cbv iota.
    rewrite Hcount, Hp. reflexivity.
  - rewrite strip_no_space by exact Hnospace.
    destruct d as [| d | d | d | d | d | d | d | d | d | d];
      [destruct (Hnn eq_refl) | ..];
      cbn [NilEmpty.string_of_uint list_ascii_of_string] in Hp, Hcount |- *;
      match goal with
      | |- context [Ascii.eqb ?c (ascii_of_nat 45)] =>
          change (Ascii.eqb c (ascii_of_nat 45)) with false;
          change (Ascii.eqb c (ascii_of_nat 43)) with false
      end;
      cbv iota; rewrite Hcount, Hp; reflexivity.
Qed.

(** [int(str(n)) == n] whenever [str(n)] can be formed. *)
Lemma int_of_str_of_int (n : Z) (s : string) :
  str_of_int n = Ok s -> int_of_str s = Ok n.
Proof.
  unfold str_of_int, digits_of_int, NilZero.string_of_uint.
  assert (Hnn : N.to_uint (Z.abs_N n) <> Decimal.Nil).
  { destruct (Z.abs_N n); [discriminate | apply DecimalPos.Unsigned.to_uint_nonnil]. }
  pose proof (DecimalN.Unsigned.of_to (Z.abs_N n)) as Hof. unfold N.of_uint in Hof.
  pose proof (int_of_str_uint (N.to_uint (Z.abs_N n)) (n <? 0) Hnn) as Hint.
  destruct (N.to_uint (Z.abs_N n)) as [| d | d | d | d | d | d | d | d | d | d] eqn:Hd;
    [destruct (Hnn eq_refl) | ..];
    match goal with
    | |- context [(max_str_digits <? ?l)%nat] =>
        destruct (Nat.ltb_spec max_str_digits l) as [Hlong | Hshort]; [discriminate |]
    end;
    intros [= <-]; specialize (Hint Hshort); rewrite Hof in Hint;
    destruct (Z.ltb_spec n 0); (etransitivity; [exact Hint | f_equal; lia]).
Qed.

(** The text of an int has no [rate=] in it. *)
Lemma no_rate_in_digits (s : string) :
  Forall (fun c => is_digit c = true) (list_ascii_of_string s) ->
  occurs "rate=" s = false.
Proof.
  induction s as [| c s IH]; intros Hall; [reflexivity |].
  cbn [list_ascii_of_string] in Hall. apply Forall_cons in Hall as [Hc Hrest].
  cbn [occurs]. rewrite (IH Hrest), orb_false_r.
  cbn [is_prefix]. destruct (Ascii.eqb_spec "r"%char c) as [<- | _];
    [discriminate Hc | reflexivity].
Qed.

Lemma no_rate_in_str_of_int (n : Z) (s : string) :
  str_of_int n = Ok s -> occurs "rate=" s = false.
Proof.
  unfold str_of_int. destruct (_ <? _)%nat; [discriminate |]. intros [= <-].
  assert (Hdigits : Forall (fun c => is_digit c = true)
                           (list_ascii_of_string (digits_of_int n))).
  { unfold digits_of_int, NilZero.string_of_uint.
    destruct (N.to_uint (Z.abs_N n)) eqn:Hd;
      [repeat constructor | rewrite <- Hd; apply digits_of_uint ..]. }
  destruct (n <? 0).
  - change (String.append "-" (digits_of_int n)) with (String "-" (digits_of_int n)).
    cbn [occurs is_prefix]. change (Ascii.eqb "r" "-") with false.
    cbn [orb]. apply no_rate_in_digits, Hdigits.
  - apply no_rate_in_digits, Hdigits.
Qed.

(** X5: whenever [run_recv_track]'s [f"audio/pcm;rate={sample_rate}"] can be
    formed (the int has no more digits than CPython converts), the rate that
    [run_send_track] reads back from it with
    [int(mime_type.split('rate=')[1])] is the rate that was written. *)
Theorem parse_rate_of_pcm_mime (rate : Z) (mime : string) :
  pcm_mime rate = Ok mime -> parse_rate mime = Ok rate.
Proof.
  unfold pcm_mime. destruct (str_of_int rate) as [digits | e] eqn:Hstr; [| discriminate].
  cbn [rbind]. intros [= <-].
  pose proof (int_of_str_of_int rate digits Hstr) as Hint.
  pose proof (no_rate_in_str_of_int rate digits Hstr) as Hocc.
  unfold parse_rate, str_split. simpl.
  rewrite (split_go_no_occurrence _ _ _ Hocc). simpl.
  rewrite string_of_list_ascii_of_string. exact Hint.
Qed.

Lemma parse_rate_of_pcm_mime_witness :
  parse_rate "audio/pcm;rate=16000" = Ok 16000.
Proof. apply (parse_rate_of_pcm_mime 16000 "audio/pcm;rate=16000"). reflexivity. Defined.

(** ** The frames as a function of the byte stream *)




Section FixedRateResidue.
Variables rate smp : Z.
Variable send_track : option nat.
Hypothesis Hsamples : frame_samples rate = Ok smp.



End FixedRateResidue.






(** * Further properties of the connection lifecycle *)

Local Open Scope nat_scope.

(** Run a coroutine of the lifecycle up to its next read of memory or call
    to a collaborator. *)
Ltac step_coro :=
  unfold _run, info, async_with_live, close, setattr_genai_session, update_object,
    connections_discard, getattr_pc, getattr_genai_session, await, mbind, coro_bind,
    fmap, coro_fmap, run;
  cbn [bind advance try_except capture heap trace spawned objects connections next_id];
  unfold emit;
  cbn [bind advance try_except capture heap trace spawned objects connections next_id].

Ltac settle :=
  repeat (progress (run_handler; step_coro;
                    cbn [pc genai_session recv_track send_track app])).

(** One turn of the event loop, run as far as it goes. *)
Ltac turn := rewrite event_loop_step; settle.

(** Consider every way the collaborators can answer when nothing else runs
    in between. *)
Ltac answer_eagerly env :=
  repeat match goal with
         | |- context [match eager env ?n ?c with _ => _ end] =>
             let H := fresh "Hans" in
             destruct (eager env n c) as [[? | ?] | ? |] eqn:H; run_handler
         end.

(** ** The orchestrator *)

(** X8: when the AI session opens and the egress loop ends, by returning or
    by raising an exception that derives from [Exception] (and the exit of the
    session context does the same), [_run] does not raise: it leaves the
    session context, logs the error if the loop or the exit raised, closes the
    transport and then the session, takes the connection out of [connections]
    and logs that it stopped.  [genai_session] stays bound to the closed
    session. *)
Theorem run_tears_down_when_egress_ends
        (env : environment) (w : world) (self : nat) (o : RTCConnection) (p s : nat)
        (r r' : result unit) :
  objects (heap w) !! self = Some o ->
  pc o = Some p ->
  (forall n, eager env n LiveConnect = Now (Ok s)) ->
  (forall n, eager env n (EgressLoop s) = Now r) ->
  (forall n, eager env n (LiveExit s) = Now r') ->
  (forall e, r = Err e -> is_Exception e = true) ->
  (forall e, r' = Err e -> is_Exception e = true) ->
  (forall n, eager env n (PcClose p) = Now (Ok tt)) ->
  (forall n, eager env n (SessionClose s) = Now (Ok tt)) ->
  run env (_run self) w =
    (Done (Ok tt),
     mkWorld
       (mkStore (alter (fun o => mkConnection (recv_track o) (send_track o) (pc o) (Bound s))
                       self (objects (heap w)))
                (connections (heap w) ∖ {[self]})
                (next_id (heap w)))
       (trace w ++
        [EvInfo "Connection started"; EvOn p "datachannel";
         EvOn p "connectionstatechange"; EvOn p "track";
         EvCall LiveConnect; EvInfo "Connected to GenAI session";
         EvCall (EgressLoop s); EvCall (LiveExit s)] ++
        match r, r' with
        | Ok _, Ok _ => []
        | _, _ => [EvInfo "Error sending frame"]
        end ++
        [EvCall (PcClose p); EvCall (SessionClose s); EvInfo "Connection stopped"])
       (spawned w)).
Proof.
  intros Hobj Hpc Hconn Hloop Hexit Hr Hr' Hpcc Hsc.
  step_coro. rewrite Hobj. step_coro. rewrite Hpc. step_coro.
  rewrite Hconn. step_coro. rewrite Hloop.
  destruct r as [[] | e], r' as [[] | e']; step_coro; rewrite Hexit; step_coro;
    rewrite ?(Hr _ eq_refl), ?(Hr' _ eq_refl); step_coro;
    rewrite lookup_alter_eq, Hobj; cbn [fmap option_fmap option_map pc genai_session];
    step_coro; rewrite Hpc; step_coro; rewrite Hpcc; step_coro;
    rewrite lookup_alter_eq, Hobj; cbn [fmap option_fmap option_map pc genai_session];
    step_coro; rewrite Hsc; step_coro; rewrite <- ?app_assoc; reflexivity.
Qed.

Lemma run_tears_down_when_egress_ends_witness :
  run call_ends (_run 0) (mkWorld (one_connection Unset) [] []) =
    (Done (Ok tt),
     mkWorld
       (mkStore (alter (fun o => mkConnection (recv_track o) (send_track o) (pc o) (Bound 7))
                       0 (objects (one_connection Unset)))
                (connections (one_connection Unset) ∖ {[0]})
                (next_id (one_connection Unset)))
       ([] ++
        [EvInfo "Connection started"; EvOn 1 "datachannel";
         EvOn 1 "connectionstatechange"; EvOn 1 "track";
         EvCall LiveConnect; EvInfo "Connected to GenAI session";
         EvCall (EgressLoop 7); EvCall (LiveExit 7)] ++
        [EvInfo "Error sending frame"] ++
        [EvCall (PcClose 1); EvCall (SessionClose 7); EvInfo "Connection stopped"])
       []).
Proof.
  apply (run_tears_down_when_egress_ends call_ends (mkWorld (one_connection Unset) [] []) 0
           (mkConnection None None (Some 1) Unset) 1 7
           (Err (External "ConnectionClosed")) (Ok tt)).
  - reflexivity.
  - reflexivity.
  - intros n. reflexivity.
  - intros n. reflexivity.
  - intros n. reflexivity.
  - intros e [= <-]. reflexivity.
  - intros e H. discriminate H.
  - intros n. reflexivity.
  - intros n. reflexivity.
Defined.

(** X21: when the egress loop ends with an exception that does not derive
    from [Exception] (the task is cancelled), [except Exception] does not
    catch it: [_run] leaves the session context and ends with that exception.
    Nothing is logged, neither the transport nor the session is closed, and
    the connection stays in [connections]. *)
Theorem run_skips_teardown_when_cancelled
        (env : environment) (w : world) (self : nat) (o : RTCConnection) (p s : nat)
        (e : exn) :
  objects (heap w) !! self = Some o ->
  pc o = Some p ->
  is_Exception e = false ->
  (forall n, eager env n LiveConnect = Now (Ok s)) ->
  (forall n, eager env n (EgressLoop s) = Now (Err e)) ->
  (forall n, eager env n (LiveExit s) = Now (Ok tt)) ->
  run env (_run self) w =
    (Done (Err e),
     mkWorld
       (mkStore (alter (fun o => mkConnection (recv_track o) (send_track o) (pc o) (Bound s))
                       self (objects (heap w)))
                (connections (heap w))
                (next_id (heap w)))
       (trace w ++
        [EvInfo "Connection started"; EvOn p "datachannel";
         EvOn p "connectionstatechange"; EvOn p "track";
         EvCall LiveConnect; EvInfo "Connected to GenAI session";
         EvCall (EgressLoop s); EvCall (LiveExit s)])
       (spawned w)).
Proof.
  intros Hobj Hpc He Hconn Hloop Hexit.
  step_coro. rewrite Hobj. step_coro. rewrite Hpc. step_coro.
  rewrite Hconn. step_coro. rewrite Hloop. step_coro. rewrite Hexit. step_coro.
  rewrite He. step_coro. rewrite <- ?app_assoc. reflexivity.
Qed.

Lemma run_skips_teardown_when_cancelled_witness :
  run call_cancelled (_run 0) (mkWorld (one_connection Unset) [] []) =
    (Done (Err (BaseExc "CancelledError")),
     mkWorld
       (mkStore (alter (fun o => mkConnection (recv_track o) (send_track o) (pc o) (Bound 7))
                       0 (objects (one_connection Unset)))
                (connections (one_connection Unset))
                (next_id (one_connection Unset)))
       ([] ++
        [EvInfo "Connection started"; EvOn 1 "datachannel";
         EvOn 1 "connectionstatechange"; EvOn 1 "track";
         EvCall LiveConnect; EvInfo "Connected to GenAI session";
         EvCall (EgressLoop 7); EvCall (LiveExit 7)])
       []).
Proof.
  apply (run_skips_teardown_when_cancelled call_cancelled
           (mkWorld (one_connection Unset) [] []) 0
           (mkConnection None None (Some 1) Unset) 1 7 (BaseExc "CancelledError")).
  - reflexivity.
  - reflexivity.
  - reflexivity.
  - intros n. reflexivity.
  - intros n. reflexivity.
  - intros n. reflexivity.
Defined.

(** X9: when the AI service cannot be reached (the connect raises an
    exception that derives from [Exception]), [_run] logs the error and
    closes the transport, but then ends with [AttributeError], raised by
    [close] on the session that was never assigned: the connection is not
    taken out of [connections] and "Connection stopped" is not logged. *)
Theorem run_keeps_connection_registered_when_connect_fails
        (env : environment) (w : world) (self : nat) (o : RTCConnection) (p : nat) (e : exn) :
  objects (heap w) !! self = Some o ->
  pc o = Some p ->
  genai_session o = Unset ->
  is_Exception e = true ->
  (forall n, eager env n LiveConnect = Now (Err e)) ->
  (forall n, eager env n (PcClose p) = Now (Ok tt)) ->
  run env (_run self) w =
    (Done (Err AttributeError),
     mkWorld (heap w)
             (trace w ++
              [EvInfo "Connection started"; EvOn p "datachannel";
               EvOn p "connectionstatechange"; EvOn p "track";
               EvCall LiveConnect; EvInfo "Error sending frame";
               EvCall (PcClose p)])
             (spawned w)).
Proof.
  intros Hobj Hpc Hunset He Hconn Hpcc.
  step_coro. rewrite Hobj. step_coro. rewrite Hpc. step_coro.
  rewrite Hconn. step_coro. rewrite He. step_coro.
  rewrite Hobj. step_coro. rewrite Hpc. step_coro.
  rewrite Hpcc. step_coro. rewrite Hobj, Hunset. step_coro.
  rewrite <- ?app_assoc. destruct w as [[ob cs n] tr sp]. reflexivity.
Qed.

Lemma run_keeps_connection_registered_when_connect_fails_witness :
  run ai_refuses (_run 0) (mkWorld (one_connection Unset) [] []) =
    (Done (Err AttributeError),
     mkWorld (one_connection Unset)
             ([] ++
              [EvInfo "Connection started"; EvOn 1 "datachannel";
               EvOn 1 "connectionstatechange"; EvOn 1 "track";
               EvCall LiveConnect; EvInfo "Error sending frame";
               EvCall (PcClose 1)])
             []).
Proof.
  apply (run_keeps_connection_registered_when_connect_fails ai_refuses
           (mkWorld (one_connection Unset) [] []) 0
           (mkConnection None None (Some 1) Unset) 1 (External "ConnectionRefusedError"));
    try reflexivity; intros n; reflexivity.
Defined.

(** ** [close] and the handlers that call it *)

(** X10: [close] reads the connection and calls the collaborators, and that
    is all: whatever they answer, it assigns no attribute, leaves
    [connections] alone and schedules nothing.  After [close] the connection
    still holds its closed transport and session. *)
Theorem close_leaves_memory_unchanged (env : environment) (w : world) (self : nat) :
  heap (run env (close self) w).2 = heap w /\
  spawned (run env (close self) w).2 = spawned w.
Proof.
  step_coro. destruct (objects (heap w) !! self) as [o |] eqn:Hobj; [| split; reflexivity].
  step_coro.
  assert (Hsess : forall tr,
            let w1 := advance (eager env)
                        (bind match objects (heap w) !! self with
                              | Some o0 => match genai_session o0 with
                                           | Unset => Raise AttributeError
                                           | Bound s => Return s
                                           end
                              | None => Raise AttributeError
                              end
                              (fun s => Await (SessionClose s)
                                          (fun r => match r with
                                                    | Ok x => Return x
                                                    | Err e => Raise e
                                                    end)))
                        (mkWorld (heap w) tr (spawned w)) in
            heap w1.2 = heap w /\ spawned w1.2 = spawned w).
  { intros tr. rewrite Hobj. destruct (genai_session o) as [| s]; step_coro;
      [split; reflexivity |].
    destruct (eager env _ (SessionClose s)) as [[[] | e] | r |]; split; reflexivity. }
  destruct (pc o) as [p |]; step_coro.
  - destruct (eager env (length (trace w)) (PcClose p)) as [[[] | e] | r |];
      step_coro; try (split; reflexivity). apply Hsess.
  - destruct w as [h tr sp]. apply Hsess.
Qed.

(** X14: [on_connectionstatechange] logs the state and closes the connection
    when the state is "failed" or "closed", starting with the transport; in
    every other state ("disconnected" among them) it logs and returns. *)
Theorem state_change_closes_only_when_failed_or_closed
        (env : environment) (w : world) (self : nat) (o : RTCConnection) (p : nat)
        (connectionState : string) :
  objects (heap w) !! self = Some o ->
  pc o = Some p ->
  exists more,
    trace (run env (on_connectionstatechange self connectionState) w).2
      = trace w ++ EvInfo "Connection state is" :: more /\
    (connectionState = "failed" \/ connectionState = "closed" ->
     exists rest, more = EvCall (PcClose p) :: rest) /\
    (~ (connectionState = "failed" \/ connectionState = "closed") ->
     more = [] /\
     (run env (on_connectionstatechange self connectionState) w).1 = Done (Ok tt)).
Proof.
  intros Hobj Hpc. unfold on_connectionstatechange, run, info, mbind, coro_bind.
  cbn [bind advance]. case_bool_decide as Hstate.
  - rewrite (close_unfold _ _ self o) by exact Hobj. rewrite Hpc.
    destruct (eager env _ (PcClose p)) as [[[] | e] | r |].
    + match goal with |- context [advance ?E ?c ?w0] =>
        destruct (advance_trace_extends E c w0) as (rest & Hrest) end.
      eexists. split; [rewrite Hrest; unfold emit; cbn [trace];
                       rewrite <- !app_assoc; reflexivity |].
      split; [eauto | tauto].
    + eexists. split; [unfold emit; cbn [snd trace]; rewrite <- !app_assoc; reflexivity |].
      split; [eauto | tauto].
    + eexists. split; [unfold emit; cbn [snd trace]; rewrite <- !app_assoc; reflexivity |].
      split; [eauto | tauto].
    + eexists. split; [unfold emit; cbn [snd trace]; rewrite <- !app_assoc; reflexivity |].
      split; [eauto | tauto].
  - exists []. split; [reflexivity |]. split; [tauto | auto].
Qed.

Lemma state_change_closes_only_when_failed_or_closed_witness :
  exists more,
    trace (run all_ok (on_connectionstatechange 0 "failed")
               (mkWorld (one_connection (Bound 7)) [] [])).2
      = [] ++ EvInfo "Connection state is" :: more /\
    ("failed" = "failed" \/ "failed" = "closed" ->
     exists rest, more = EvCall (PcClose 1) :: rest) /\
    (~ ("failed" = "failed" \/ "failed" = "closed") ->
     more = [] /\
     (run all_ok (on_connectionstatechange 0 "failed")
          (mkWorld (one_connection (Bound 7)) [] [])).1 = Done (Ok tt)).
Proof.
  apply (state_change_closes_only_when_failed_or_closed all_ok
           (mkWorld (one_connection (Bound 7)) [] []) 0
           (mkConnection None None (Some 1) (Bound 7)) 1 "failed").
  - reflexivity.
  - reflexivity.
Defined.

(** ** [on_shutdown] before every session is there *)

Section ClosingAtShutdown.
Variable env : environment.
Hypothesis pc_close_returns : forall n p, eager env n (PcClose p) = Now (Ok tt).
Hypothesis session_close_returns : forall n s, eager env n (SessionClose s) = Now (Ok tt).

(** With collaborators that close normally, [close] raises exactly on the
    connections whose session was never assigned. *)
Lemma close_outcome (w : world) (self : nat) (o : RTCConnection) :
  objects (heap w) !! self = Some o ->
  run env (close self) w =
    (Done (match genai_session o with Bound _ => Ok tt | Unset => Err AttributeError end),
     mkWorld (heap w) (trace w ++ close_calls o) (spawned w)).
Proof using pc_close_returns session_close_returns.
  intros Hobj. destruct (genai_session o) as [| s] eqn:Hs.
  - unfold run, close_calls. rewrite (close_unfold _ w self o Hobj), Hs.
    destruct (pc o) as [p |].
    + rewrite pc_close_returns.
      rewrite (advance_getattr_unset _ self o) by assumption. reflexivity.
    + rewrite (advance_getattr_unset _ self o) by assumption.
      simpl. rewrite app_nil_r. destruct w; reflexivity.
  - rewrite (close_returns env pc_close_returns session_close_returns w self o s Hobj Hs).
    reflexivity.
Qed.

Lemma gather_close_outcome (selves : list nat) (w : world) :
  Forall (fun self => is_Some (objects (heap w) !! self)) selves ->
  exists sts,
    (gather env (close <$> selves) w).1 = sts /\
    heap (gather env (close <$> selves) w).2 = heap w /\
    Forall (fun st => st = Done (Ok tt) \/ st = Done (Err AttributeError)) sts /\
    forall self o, self ∈ selves -> objects (heap w) !! self = Some o ->
                   genai_session o = Unset -> Done (Err AttributeError) ∈ sts.
Proof using pc_close_returns session_close_returns.
  revert w. induction selves as [| self selves IH]; intros w Hall.
  - exists []. repeat split; [constructor |].
    intros self o Hin. apply elem_of_nil in Hin as [].
  - apply Forall_cons in Hall as [[o Hobj] Hall].
    rewrite fmap_cons. cbn [gather]. rewrite (close_outcome w self o Hobj).
    destruct (IH (mkWorld (heap w) (trace w ++ close_calls o) (spawned w)) Hall)
      as (sts & Hsts & Hheap & Hshape & Hraise).
    destruct (gather env (close <$> selves) _) as [sts' w'']. cbn [fst snd] in *. subst sts'.
    eexists. split; [reflexivity |]. split; [exact Hheap |]. split.
    + constructor; [| exact Hshape]. destruct (genai_session o); auto.
    + intros self' o' Hin Hobj' Hunset. apply elem_of_cons in Hin as [-> | Hin].
      * rewrite Hobj in Hobj'. injection Hobj' as <-. rewrite Hunset. left.
      * right. exact (Hraise self' o' Hin Hobj' Hunset).
Qed.
End ClosingAtShutdown.

(** [gather] over coroutines that return or raise [AttributeError]. *)
Lemma gathered_attribute_error (sts : list (status unit)) :
  Forall (fun st => st = Done (Ok tt) \/ st = Done (Err AttributeError)) sts ->
  Done (Err AttributeError) ∈ sts ->
  gathered sts = Done (Err AttributeError).
Proof.
  induction 1 as [| st sts [-> | ->] _ IH]; intros Hin.
  - apply elem_of_nil in Hin as [].
  - apply elem_of_cons in Hin as [Heq | Hin]; [discriminate Heq |]. simpl. exact (IH Hin).
  - reflexivity.
Qed.

(** X11: if one registered connection has no AI session yet (the service
    has not answered, or refused), [on_shutdown] raises [AttributeError] even
    though every collaborator closes normally, and [connections] is not
    cleared. *)
Theorem shutdown_raises_when_a_session_is_missing
        (env : environment) (w : world) (self : nat) (o : RTCConnection) :
  (forall c, c ∈ connections (heap w) -> is_Some (objects (heap w) !! c)) ->
  self ∈ connections (heap w) ->
  objects (heap w) !! self = Some o ->
  genai_session o = Unset ->
  (forall n p, eager env n (PcClose p) = Now (Ok tt)) ->
  (forall n s, eager env n (SessionClose s) = Now (Ok tt)) ->
  (on_shutdown env w).1 = Done (Err AttributeError) /\
  heap (on_shutdown env w).2 = heap w.
Proof.
  intros Hobjs Hin Hobj Hunset Hpc Hsess.
  destruct (gather_close_outcome env Hpc Hsess (elements (connections (heap w))) w)
    as (sts & Hsts & Hheap & Hshape & Hraise).
  { apply Forall_forall. intros c Hc. apply Hobjs, elem_of_elements, Hc. }
  assert (Herr : gathered sts = Done (Err AttributeError)).
  { apply gathered_attribute_error; [exact Hshape |].
    apply (Hraise self o); [apply elem_of_elements, Hin | exact Hobj | exact Hunset]. }
  unfold on_shutdown.
  destruct (gather env (close <$> elements (connections (heap w))) w) as [sts' w'].
  cbn [fst snd] in *. subst sts'. rewrite Herr. split; [reflexivity | exact Hheap].
Qed.

Lemma shutdown_raises_when_a_session_is_missing_witness :
  (on_shutdown all_ok (mkWorld (one_connection Unset) [] [])).1 = Done (Err AttributeError) /\
  heap (on_shutdown all_ok (mkWorld (one_connection Unset) [] [])).2 = one_connection Unset.
Proof.
  apply (shutdown_raises_when_a_session_is_missing all_ok
           (mkWorld (one_connection Unset) [] []) 0
           (mkConnection None None (Some 1) Unset)).
  - intros c Hc. cbn [heap one_connection connections] in Hc.
    apply elem_of_singleton in Hc as ->. eexists. reflexivity.
  - cbn [heap one_connection connections]. apply elem_of_singleton. reflexivity.
  - reflexivity.
  - reflexivity.
  - intros n p. reflexivity.
  - intros n s. reflexivity.
Defined.

(** ** [offer] and [handle_offer] *)

(** X12: [offer] puts the new connection into [connections] before anything
    can fail, and nothing in the handler takes it out: whatever the
    collaborators answer, the connection is registered when the handler ends
    or blocks.  If the body of the request was read, the connection has its
    peer connection and the orchestrator is scheduled; if not, the connection
    stays registered with [pc] [None] and no orchestrator that would ever
    remove it. *)
Theorem offer_registers_the_connection (env : environment) (w : world) :
  connections (heap (run env offer w).2) = {[ next_id (heap w) ]} ∪ connections (heap w) /\
  (objects (heap (run env offer w).2) !! next_id (heap w)
     = Some (mkConnection None None (Some (S (next_id (heap w)))) Unset) /\
   spawned (run env offer w).2 = spawned w ++ [Run (next_id (heap w))] /\
   (exists content, eager env (length (trace w)) RequestText = Now (Ok content))
   \/
   objects (heap (run env offer w).2) !! next_id (heap w) = Some new_RTCConnection /\
   spawned (run env offer w).2 = spawned w /\
   (forall content, eager env (length (trace w)) RequestText <> Now (Ok content))).
Proof.
  unfold run. run_handler.
  destruct (eager env (length (trace w)) RequestText) as [[content | e] | r |] eqn:Htext;
    run_handler.
  - answer_eagerly env; (split; [reflexivity |]); left;
      (split; [apply pc_after_setattr |]); (split; [reflexivity |]); eauto.
  - split; [reflexivity |]. right. split; [apply lookup_insert_eq |].
    split; [reflexivity | discriminate].
  - split; [reflexivity |]. right. split; [apply lookup_insert_eq |].
    split; [reflexivity | discriminate].
  - split; [reflexivity |]. right. split; [apply lookup_insert_eq |].
    split; [reflexivity | discriminate].
Qed.

(** X13: [offer] returns a response only after the whole negotiation: the
    body of the request went to [setRemoteDescription], the answer that
    [createAnswer] gave went to [setLocalDescription], all on the connection's
    own peer connection, after the orchestrator was scheduled; the response is
    of type application/sdp and its text is the local description. *)
Theorem offer_answers_with_the_local_description
        (env : environment) (w : world) (r : web_Response) :
  (run env offer w).1 = Done (Ok r) ->
  exists content answer,
    trace (run env offer w).2
      = trace w ++ [EvCall RequestText; EvSpawn (Run (next_id (heap w)));
                    EvCall (SetRemoteDescription (S (next_id (heap w))) content);
                    EvCall (CreateAnswer (S (next_id (heap w))));
                    EvCall (SetLocalDescription (S (next_id (heap w))) answer)] /\
    eager env (length (trace w)) RequestText = Now (Ok content) /\
    eager env (3 + length (trace w)) (CreateAnswer (S (next_id (heap w)))) = Now (Ok answer) /\
    eager env (4 + length (trace w)) (SetLocalDescription (S (next_id (heap w))) answer)
      = Now (Ok (text r)) /\
    content_type r = "application/sdp".
Proof.
  unfold run. run_handler.
  destruct (eager env (length (trace w)) RequestText) as [[content | e] | r0 |] eqn:Htext;
    run_handler; try discriminate.
  answer_eagerly env; try discriminate.
  intros Hr. injection Hr as <-. exists content. eexists.
  split; [rewrite <- !app_assoc; reflexivity |].
  rewrite !length_app in Hans0. rewrite !length_app in Hans1. cbn [length] in Hans0, Hans1.
  replace (length (trace w) + 1 + 1 + 1) with (3 + length (trace w)) in Hans0 by lia.
  replace (length (trace w) + 1 + 1 + 1 + 1) with (4 + length (trace w)) in Hans1 by lia.
  repeat split; assumption.
Qed.

Lemma offer_answers_with_the_local_description_witness :
  exists content answer,
    trace (run all_ok offer boot).2
      = trace boot ++ [EvCall RequestText; EvSpawn (Run (next_id (heap boot)));
                       EvCall (SetRemoteDescription (S (next_id (heap boot))) content);
                       EvCall (CreateAnswer (S (next_id (heap boot))));
                       EvCall (SetLocalDescription (S (next_id (heap boot))) answer)] /\
    eager all_ok (length (trace boot)) RequestText = Now (Ok content) /\
    eager all_ok (3 + length (trace boot)) (CreateAnswer (S (next_id (heap boot))))
      = Now (Ok answer) /\
    eager all_ok (4 + length (trace boot)) (SetLocalDescription (S (next_id (heap boot))) answer)
      = Now (Ok (text (mkWebResponse "application/sdp" "local-sdp"))) /\
    content_type (mkWebResponse "application/sdp" "local-sdp") = "application/sdp".
Proof.
  apply (offer_answers_with_the_local_description all_ok boot
           (mkWebResponse "application/sdp" "local-sdp")).
  reflexivity.
Defined.

(** ** A whole call *)



(** * Further properties of the ingress direction *)

(** ** [on_track] *)

(** Once a track was taken, the handler only logs. *)
Lemma on_tracks_after_taken (fresh : nat) (tracks : list Track) (self : RTCConnection)
      (t : nat) :
  recv_track self = Some t ->
  on_tracks fresh tracks self = (self, TkInfo ∘ kind <$> tracks).
Proof.
  intros Htaken. revert fresh. induction tracks as [| track rest IH]; intros fresh.
  - reflexivity.
  - cbn [on_tracks]. unfold on_track. rewrite Htaken, IH. reflexivity.
Qed.

(** Tracks that are not audio leave the connection as it is. *)
Lemma on_tracks_passed_over (fresh : nat) (before rest : list Track) (self : RTCConnection) :
  recv_track self = None ->
  Forall (fun t => kind t <> "audio") before ->
  on_tracks fresh (before ++ rest) self =
    ((on_tracks (fresh + length before) rest self).1,
     concat (passed_over <$> before) ++ (on_tracks (fresh + length before) rest self).2).
Proof.
  intros Hnone Hbefore. revert fresh.
  induction Hbefore as [| track before Hkind _ IH]; intros fresh.
  - cbn [app length fmap list_fmap concat]. rewrite Nat.add_0_r.
    destruct (on_tracks fresh rest self). reflexivity.
  - cbn [app on_tracks]. unfold on_track at 1. rewrite Hnone.
    rewrite bool_decide_eq_false_2 by exact Hkind.
    rewrite IH. cbn [length]. rewrite Nat.add_succ_r.
    cbn [fst snd]. rewrite fmap_cons. cbn [concat]. rewrite <- app_assoc. reflexivity.
Qed.

(** X16: of the tracks that the peer connection announces, the connection
    takes the first audio track and no other.  The tracks before it are logged
    and get an "ended" handler; for the first audio track a sending track is
    created and added to the peer connection and the ingress loop is scheduled,
    once; every later track, audio or not, is logged and nothing else. *)
Theorem only_the_first_audio_track_is_taken (before after : list Track) (a : Track) (self : RTCConnection) (p fresh : nat) :
  recv_track self = None ->
  pc self = Some p ->
  kind a = "audio" ->
  Forall (fun t => kind t <> "audio") before ->
  on_tracks fresh (before ++ a :: after) self =
    (mkConnection (Some (track_id a)) (Some (fresh + length before)) (Some p)
                  (genai_session self),
     concat (passed_over <$> before) ++
     [TkInfo "audio"; TkAddTrack p (fresh + length before); TkSpawnRecv;
      TkOnEnded (track_id a)] ++
     (TkInfo ∘ kind <$> after)).
Proof.
  intros Hnone Hpc Haudio Hbefore.
  rewrite (on_tracks_passed_over fresh before (a :: after) self Hnone Hbefore).
  cbn [on_tracks]. unfold on_track. rewrite Hnone, Hpc.
  rewrite bool_decide_eq_true_2 by exact Haudio.
  rewrite (on_tracks_after_taken _ after _ (track_id a)) by reflexivity.
  rewrite Haudio. reflexivity.
Qed.

Lemma only_the_first_audio_track_is_taken_witness :
  on_tracks 10 ([mkTrack 1 "video"] ++ mkTrack 2 "audio" :: [mkTrack 3 "audio"; mkTrack 4 "video"])
            (mkConnection None None (Some 5) Unset) =
    (mkConnection (Some (track_id (mkTrack 2 "audio"))) (Some (10 + length [mkTrack 1 "video"]))
                  (Some 5) (genai_session (mkConnection None None (Some 5) Unset)),
     concat (passed_over <$> [mkTrack 1 "video"]) ++
     [TkInfo "audio"; TkAddTrack 5 (10 + length [mkTrack 1 "video"]); TkSpawnRecv;
      TkOnEnded (track_id (mkTrack 2 "audio"))] ++
     (TkInfo ∘ kind <$> [mkTrack 3 "audio"; mkTrack 4 "video"])).
Proof.
  apply (only_the_first_audio_track_is_taken [mkTrack 1 "video"] [mkTrack 3 "audio"; mkTrack 4 "video"] (mkTrack 2 "audio")
           (mkConnection None None (Some 5) Unset) 5 10).
  - reflexivity.
  - reflexivity.
  - reflexivity.
  - repeat constructor. discriminate.
Defined.

(** ** [run_recv_track] *)

Lemma frame_samples_16000 : frame_samples 16000%Z = Ok 320%Z.
Proof. vm_compute. reflexivity. Qed.

Lemma pcm_mime_16000 : pcm_mime 16000%Z = Ok "audio/pcm;rate=16000".
Proof. vm_compute. reflexivity. Qed.

Section IngressLoop.
Context {F R : Type}.
Variable AudioResampler : string -> string -> Z -> Z -> R.
Variable resample : R -> F -> result (list (result bytes)) * R.
Variable session_at : nat -> attr nat.
Variable send_at : nat -> result unit.

Lemma send_blobs_shape (k : nat) (chunks : list (result bytes)) :
  Forall sends_pcm_16000 (send_blobs session_at send_at 16000 k chunks).2.
Proof.
  revert k. induction chunks as [| [data | e] rest IH]; intros k; cbn [send_blobs].
  - constructor.
  - rewrite pcm_mime_16000.
    destruct (session_at k) as [| s]; [constructor |].
    destruct (send_at k) as [[] | e].
    + specialize (IH (S k)). destruct (send_blobs _ _ _ (S k) rest) as [r evs].
      cbn [snd] in *. constructor; [| exact IH].
      exists s, data. reflexivity.
    + cbn [snd]. constructor; [| constructor].
      exists s, data. reflexivity.
  - constructor.
Qed.

(** What [except Exception] makes of an exception, after the sends [evs]. *)
Lemma except_Exception_shape (e : exn) (evs : list ingress_event) :
  Forall sends_pcm_16000 evs ->
  exists sends,
    (except_Exception e evs).2
      = sends ++ match (except_Exception e evs).1 with
                 | Stopped => [InInfo "Error receiving frame"]
                 | _ => []
                 end /\
    Forall sends_pcm_16000 sends /\
    forall e', (except_Exception e evs).1 = IngressRaised e' -> is_Exception e' = false.
Proof.
  intros Hevs. unfold except_Exception. destruct (is_Exception e) eqn:He; cbn [fst snd].
  - exists evs. repeat split; [exact Hevs | discriminate].
  - exists evs. rewrite app_nil_r. repeat split; [exact Hevs |].
    intros e' [= <-]. exact He.
Qed.

Lemma recv_loop_shape (resampler : R) (k : nat) (frames : list (result F)) :
  exists sends,
    (recv_loop resample session_at send_at 16000 resampler k frames).2
      = sends ++ match (recv_loop resample session_at send_at 16000 resampler k frames).1 with
                 | Stopped => [InInfo "Error receiving frame"]
                 | _ => []
                 end /\
    Forall sends_pcm_16000 sends /\
    forall e, (recv_loop resample session_at send_at 16000 resampler k frames).1
              = IngressRaised e -> is_Exception e = false.
Proof.
  revert resampler k. induction frames as [| [frame | e] rest IH]; intros resampler k;
    cbn [recv_loop].
  - exists []. repeat split; [constructor | discriminate].
  - destruct (resample resampler frame) as [[chunks | e] resampler'].
    + pose proof (send_blobs_shape k chunks) as Hsends.
      destruct (send_blobs session_at send_at 16000 k chunks) as [[k' | e] evs]; cbn [snd] in Hsends.
      * destruct (IH resampler' k') as (sends & Hevs & Hshape & Hno).
        destruct (recv_loop _ _ _ _ resampler' k' rest) as [o evs']. cbn [fst snd] in *.
        exists (evs ++ sends). rewrite Hevs, app_assoc. split; [reflexivity |].
        split; [apply Forall_app; auto | exact Hno].
      * apply except_Exception_shape, Hsends.
    + apply except_Exception_shape. constructor.
  - apply except_Exception_shape. constructor.
Qed.

(** Every chunk goes out while the session is there and accepts it. *)
Lemma send_blobs_all (k : nat) (chunks : list (result bytes)) (bs : list bytes) (s : nat) :
  mapM (fun c => match c with Ok b => Some b | Err _ => None end) chunks = Some bs ->
  (forall j, j < length bs -> session_at (k + j) = Bound s /\ send_at (k + j) = Ok tt) ->
  send_blobs session_at send_at 16000 k chunks
    = (Ok (k + length bs),
       (fun data => InSend s (mkBlob data "audio/pcm;rate=16000")) <$> bs).
Proof.
  revert k bs. induction chunks as [| [data | e] rest IH]; intros k bs Hall Hup.
  - injection Hall as <-. cbn [send_blobs length]. rewrite Nat.add_0_r. reflexivity.
  - cbn [mapM] in Hall.
    destruct (mapM _ rest) as [bs' |] eqn:Hrest; [| discriminate].
    injection Hall as <-. cbn [send_blobs]. rewrite pcm_mime_16000.
    destruct (Hup 0 ltac:(simpl; lia)) as [Hs Hsend]. rewrite Nat.add_0_r in Hs, Hsend.
    rewrite Hs, Hsend.
    rewrite (IH (S k) bs' eq_refl).
    + cbn [length]. rewrite Nat.add_succ_r. reflexivity.
    + intros j Hj. specialize (Hup (S j) ltac:(simpl; lia)).
      rewrite Nat.add_succ_r in Hup. exact Hup.
  - discriminate.
Qed.

Lemma recv_loop_all (resampler : R) (k : nat) (frames : list F) (chunks : list bytes) (s : nat) :
  resampled resample resampler frames = Some chunks ->
  (forall j, j < length chunks -> session_at (k + j) = Bound s /\ send_at (k + j) = Ok tt) ->
  recv_loop resample session_at send_at 16000 resampler k (Ok <$> frames)
    = (AwaitsFrame, (fun data => InSend s (mkBlob data "audio/pcm;rate=16000")) <$> chunks).
Proof.
  revert resampler k chunks.
  induction frames as [| frame rest IH]; intros resampler k chunks Hres Hup.
  - injection Hres as <-. reflexivity.
  - cbn [resampled] in Hres. rewrite fmap_cons. cbn [recv_loop].
    destruct (resample resampler frame) as [[cs | e] resampler']; [| discriminate].
    destruct (mapM _ cs) as [bs |] eqn:Hcs; [| discriminate].
    destruct (resampled resample resampler' rest) as [more |] eqn:Hmore; [| discriminate].
    injection Hres as <-.
    rewrite (send_blobs_all k cs bs s Hcs).
    + rewrite (IH resampler' (k + length bs) more Hmore).
      * rewrite fmap_app. reflexivity.
      * intros j Hj. rewrite <- Nat.add_assoc. apply Hup. rewrite length_app. lia.
    + intros j Hj. apply Hup. rewrite length_app. lia.
Qed.
End IngressLoop.

(** X17: whatever the track, the resampler and the AI session do,
    [run_recv_track] lets no exception that derives from [Exception] out: it
    leaves its loop by logging "Error receiving frame", once, and sends
    nothing after that; what it can raise is an exception that
    [except Exception] does not catch (a cancellation).  Every blob it sends
    is tagged [audio/pcm;rate=16000]. *)
Theorem ingress_only_ends_by_logging {F R : Type}
      (AudioResampler : string -> string -> Z -> Z -> R)
      (resample : R -> F -> result (list (result bytes)) * R)
      (session_at : nat -> attr nat) (send_at : nat -> result unit)
      (frames : list (result F)) :
  exists sends,
    (run_recv_track AudioResampler resample session_at send_at frames).2
      = sends ++ match (run_recv_track AudioResampler resample session_at send_at frames).1 with
                 | Stopped => [InInfo "Error receiving frame"]
                 | _ => []
                 end /\
    Forall sends_pcm_16000 sends /\
    forall e, (run_recv_track AudioResampler resample session_at send_at frames).1
              = IngressRaised e -> is_Exception e = false.
Proof.
  unfold run_recv_track. rewrite frame_samples_16000. apply recv_loop_shape.
Qed.

(** X18: if the first frame that yields audio arrives before the
    orchestrator has assigned [genai_session], the [AttributeError] is caught
    as a receive error: the loop logs and ends with nothing sent, whatever
    arrives later and also if the session is assigned afterwards. *)
Theorem ingress_stops_for_good_without_session {F R : Type}
      (AudioResampler : string -> string -> Z -> Z -> R)
      (resample : R -> F -> result (list (result bytes)) * R)
      (session_at : nat -> attr nat) (send_at : nat -> result unit)
      (frame : F) (data : bytes) (more : list (result bytes)) (resampler' : R)
      (rest : list (result F)) :
  resample (AudioResampler "s16" "mono" 16000%Z 320%Z) frame = (Ok (Ok data :: more), resampler') ->
  session_at 0 = Unset ->
  run_recv_track AudioResampler resample session_at send_at (Ok frame :: rest)
    = (Stopped, [InInfo "Error receiving frame"]).
Proof.
  intros Hres Hunset. unfold run_recv_track. rewrite frame_samples_16000.
  cbn [recv_loop]. rewrite Hres. cbn [send_blobs]. rewrite pcm_mime_16000, Hunset.
  reflexivity.
Qed.

Lemma ingress_stops_for_good_without_session_witness :
  run_recv_track (fun _ _ _ _ => tt) pass_through
                 (fun k => match k with 0 => Unset | S _ => Bound 7 end) (fun _ => Ok tt)
                 (Ok silence_640 :: [Ok silence_640; Ok silence_640])
    = (Stopped, [InInfo "Error receiving frame"]).
Proof.
  apply (ingress_stops_for_good_without_session (fun _ _ _ _ => tt) pass_through
           (fun k => match k with 0 => Unset | S _ => Bound 7 end) (fun _ => Ok tt)
           silence_640 silence_640 [] tt [Ok silence_640; Ok silence_640]).
  - reflexivity.
  - reflexivity.
Defined.

(** X19: while the track delivers frames and the session accepts them, every
    chunk that the resampler (16 kHz, s16, mono, 320 samples per frame) gives
    is sent once, in order, as [audio/pcm;rate=16000], and the loop waits for
    the next frame. *)
Theorem ingress_forwards_every_chunk {F R : Type}
      (AudioResampler : string -> string -> Z -> Z -> R)
      (resample : R -> F -> result (list (result bytes)) * R)
      (session_at : nat -> attr nat) (send_at : nat -> result unit)
      (frames : list F) (chunks : list bytes) (s : nat) :
  resampled resample (AudioResampler "s16" "mono" 16000%Z 320%Z) frames = Some chunks ->
  (forall k, k < length chunks -> session_at k = Bound s /\ send_at k = Ok tt) ->
  run_recv_track AudioResampler resample session_at send_at (Ok <$> frames)
    = (AwaitsFrame, (fun data => InSend s (mkBlob data "audio/pcm;rate=16000")) <$> chunks).
Proof.
  intros Hres Hup. unfold run_recv_track. rewrite frame_samples_16000.
  apply recv_loop_all; [exact Hres | exact Hup].
Qed.

Lemma ingress_forwards_every_chunk_witness :
  run_recv_track (fun _ _ _ _ => tt) pass_through (fun _ => Bound 7) (fun _ => Ok tt)
                 (Ok <$> [silence_640; silence_640])
    = (AwaitsFrame,
       (fun data => InSend 7 (mkBlob data "audio/pcm;rate=16000")) <$> [silence_640; silence_640]).
Proof.
  apply (ingress_forwards_every_chunk (fun _ _ _ _ => tt) pass_through (fun _ => Bound 7)
           (fun _ => Ok tt) [silence_640; silence_640] [silence_640; silence_640] 7).
  - reflexivity.
  - intros k _. split; reflexivity.
Defined.
